(** * tree-sitter-cspaced: the grammar of [grammar.js] and its derivations

    [grammar.js] is a declarative program: one call of tree-sitter's
    [grammar({...})] with the fields [name], [extras], [word], [externals],
    [precedences], [conflicts] and [rules].  This development embeds that
    object as a Rocq value ([cspaced]), gives the rule combinators their
    context-free meaning (a derivation relation over sequences of tokens),
    and proves properties of the language and of the syntax trees that the
    rules define. *)

From Stdlib Require Import String Ascii List Bool Arith Lia.
Import ListNotations.
Open Scope string_scope.
Open Scope list_scope.

Set Warnings "-register-all".

(** ** Regular expressions of the lexical rules *)

(** Characters are the 256 values of [ascii]: [\s] and [.] are taken over
    these (the whitespace and the line terminators beyond ASCII are out of
    the model). *)

Module Regex.

(** The escapes [\d] and [\s] of the source patterns. *)
Inductive cls := Digit | Space.

(** The regular-expression syntax that the source uses: literal characters,
    [.], the escapes, bracket sets (possibly negated, made of ranges; a
    single character is the range from itself to itself), concatenation,
    [|], [*] and [+].  [RNone] (no string at all) only arises from
    derivatives. *)
Inductive regex :=
| RNone
| REps
| RChar (c : ascii)
| RAny
| RCls (k : cls)
| RSet (negated : bool) (ranges : list (ascii * ascii))
| RSeq (a b : regex)
| RAlt (a b : regex)
| RStar (a : regex)
| RPlus (a : regex).

Definition in_range (c : ascii) (lohi : ascii * ascii) : bool :=
  Nat.leb (nat_of_ascii (fst lohi)) (nat_of_ascii c)
  && Nat.leb (nat_of_ascii c) (nat_of_ascii (snd lohi)).

Definition in_cls (k : cls) (c : ascii) : bool :=
  match k with
  | Digit => in_range c ("0"%char, "9"%char)
  | Space => in_range c ("009"%char, "013"%char) || in_range c (" "%char, " "%char)
  end.

(** [.] matches every character but a line terminator. *)
Definition is_line_terminator (c : ascii) : bool :=
  Ascii.eqb c "010"%char || Ascii.eqb c "013"%char.

Fixpoint nullable (r : regex) : bool :=
  match r with
  | RNone | RChar _ | RAny | RCls _ | RSet _ _ => false
  | REps | RStar _ => true
  | RSeq a b => nullable a && nullable b
  | RAlt a b => nullable a || nullable b
  | RPlus a => nullable a
  end.

Definition of_bool (b : bool) : regex := if b then REps else RNone.

(** Brzozowski derivative of [r] by the character [c]. *)
Fixpoint deriv (c : ascii) (r : regex) : regex :=
  match r with
  | RNone | REps => RNone
  | RChar d => of_bool (Ascii.eqb c d)
  | RAny => of_bool (negb (is_line_terminator c))
  | RCls k => of_bool (in_cls k c)
  | RSet neg rs => of_bool (xorb neg (existsb (in_range c) rs))
  | RSeq a b =>
      if nullable a then RAlt (RSeq (deriv c a) b) (deriv c b)
      else RSeq (deriv c a) b
  | RAlt a b => RAlt (deriv c a) (deriv c b)
  | RStar a => RSeq (deriv c a) (RStar a)
  | RPlus a => RSeq (deriv c a) (RStar a)
  end.

Fixpoint re_match (r : regex) (s : string) : bool :=
  match s with
  | EmptyString => nullable r
  | String c s' => re_match (deriv c r) s'
  end.

Definition regex_eq_dec (a b : regex) : {a = b} + {a <> b}.
Proof.
  decide equality.
  - apply ascii_dec.
  - decide equality.
  - apply list_eq_dec. decide equality; apply ascii_dec.
  - apply bool_dec.
Defined.

Definition regex_eqb (a b : regex) : bool :=
  if regex_eq_dec a b then true else false.

End Regex.
Import Regex.

(** ** The rule combinators of the grammar DSL *)

(** What the DSL's functions build: [$.name] is [SYMBOL], a JavaScript
    string is [STRING], a JavaScript regular expression is [PATTERN]. *)
Inductive rule :=
| BLANK
| STRING (s : string)
| PATTERN (p : regex)
| SYMBOL (name : string)
| SEQ (members : list rule)
| CHOICE (members : list rule)
| REPEAT (content : rule)
| REPEAT1 (content : rule).

Definition seq (members : list rule) : rule := SEQ members.
Definition choice (members : list rule) : rule := CHOICE members.
Definition repeat (r : rule) : rule := REPEAT r.
Definition repeat1 (r : rule) : rule := REPEAT1 r.
(** [optional(x)] is [choice(x, blank())]. *)
Definition optional (r : rule) : rule := CHOICE [r; BLANK].

(** The helper at the end of [grammar.js]. *)
Definition binary_expression (operator operand : rule) : rule :=
  seq [operand; repeat (seq [operator; operand])].

(** An entry of a [precedences] list: a name or a rule reference. *)
Inductive prec_entry :=
| PName (s : string)
| PSym (name : string).

(** The object passed to [grammar(...)].  [word] names the keyword-extraction
    rule; it plays no part in which trees the rules derive. *)
Record grammar := {
  name : string;
  extras : list rule;
  word : string;
  externals : list string;
  precedences : list (list prec_entry);
  conflicts : list (list string);
  rules : list (string * rule)
}.

(** A JavaScript object literal: a key written twice keeps its first
    position and takes the later value. *)
Fixpoint js_set (k : string) (v : rule) (o : list (string * rule))
  : list (string * rule) :=
  match o with
  | [] => [(k, v)]
  | (k', v') :: o' =>
      if String.eqb k k' then (k', v) :: o' else (k', v') :: js_set k v o'
  end.

Definition js_object (entries : list (string * rule)) : list (string * rule) :=
  fold_left (fun o kv => js_set (fst kv) (snd kv) o) entries [].

Fixpoint js_get (k : string) (o : list (string * rule)) : option rule :=
  match o with
  | [] => None
  | (k', v) :: o' => if String.eqb k k' then Some v else js_get k o'
  end.

(** ** The grammar object of [grammar.js] *)

Module Cspaced.

Definition dquote : string := String "034"%char EmptyString.

(** The regular expressions written in the source. *)
Definition re_space : regex := RCls Space.                       (* /\s/ *)
Definition re_rest_of_line : regex := RPlus RAny.                (* /.+/ *)
Definition re_identifier : regex :=                 (* /[a-zA-Z_][a-zA-Z0-9_]*/ *)
  RSeq (RSet false [("a", "z"); ("A", "Z"); ("_", "_")]%char)
       (RStar (RSet false [("a", "z"); ("A", "Z"); ("0", "9"); ("_", "_")]%char)).
Definition re_float : regex :=                                   (* /\d+\.\d+/ *)
  RSeq (RPlus (RCls Digit)) (RSeq (RChar ".") (RPlus (RCls Digit))).
Definition re_integer : regex := RPlus (RCls Digit).             (* /\d+/ *)
Definition re_hex : regex :=                           (* /0[xX][0-9a-fA-F]+/ *)
  RSeq (RChar "0") (RSeq (RSet false [("x", "x"); ("X", "X")]%char)
    (RPlus (RSet false [("0", "9"); ("a", "f"); ("A", "F")]%char))).
Definition re_binary : regex :=                                (* /0[bB][01]+/ *)
  RSeq (RChar "0") (RSeq (RSet false [("b", "b"); ("B", "B")]%char)
    (RPlus (RSet false [("0", "0"); ("1", "1")]%char))).
Definition re_octal : regex :=                                    (* /0[0-7]+/ *)
  RSeq (RChar "0") (RPlus (RSet false [("0", "7")]%char)).
(** The string-literal pattern: a quote, then any number of characters that
    are neither the quote nor a backslash, or a backslash and any character,
    then the quote; the character-literal pattern is its single-quote twin. *)
Definition re_quoted (q : ascii) : regex :=
  RSeq (RChar q)
    (RSeq (RStar (RAlt (RSet true [(q, q); ("\", "\")]%char)
                       (RSeq (RChar "\") RAny)))
          (RChar q)).
Definition re_string : regex := re_quoted "034".
Definition re_character : regex := re_quoted "'".
Definition re_line_continuation : regex :=                      (* /\\[\r\n]/ *)
  RSeq (RChar "\") (RSet false [("013", "013"); ("010", "010")]%char).

Notation "'$' n" := (SYMBOL n) (at level 1, n at level 0, format "'$' n").

(** The [rules] object, entry by entry, in source order. *)
Definition rule_entries : list (string * rule) := [
  (* === TOP LEVEL === *)
  ("translation_unit",
     repeat (choice [$"external_declaration"; $"empty_statement"]));
  ("external_declaration",
     choice [$"function_definition"; $"declaration"; $"preproc_directive";
             $"empty_statement"]);
  (* === PREPROCESSOR === *)
  ("preproc_directive",
     choice [$"preproc_include"; $"preproc_define"; $"preproc_if";
             $"preproc_ifdef"; $"preproc_else"; $"preproc_endif";
             $"preproc_undef"; $"preproc_pragma"; $"preproc_line";
             $"preproc_error"]);
  ("preproc_include",
     seq [STRING "#include";
          choice [seq [STRING "<"; PATTERN re_rest_of_line; STRING ">"];
                  seq [STRING dquote; PATTERN re_rest_of_line; STRING dquote]]]);
  ("preproc_define",
     seq [STRING "#define"; $"identifier"; optional $"_preproc_define_value"]);
  ("_preproc_define_value",
     choice [PATTERN re_rest_of_line; $"_parenthesized_parameter_list"]);
  ("preproc_if", seq [STRING "#if"; $"_preproc_expression"]);
  ("preproc_ifdef", seq [STRING "#ifdef"; $"identifier"]);
  ("preproc_else", seq [STRING "#else"]);
  ("preproc_endif", seq [STRING "#endif"]);
  ("preproc_undef", seq [STRING "#undef"; $"identifier"]);
  ("preproc_pragma", seq [STRING "#pragma"; PATTERN re_rest_of_line]);
  ("preproc_line", seq [STRING "#line"; PATTERN re_rest_of_line]);
  ("preproc_error", seq [STRING "#error"; PATTERN re_rest_of_line]);
  ("_preproc_expression", PATTERN re_rest_of_line);
  (* === DECLARATIONS === *)
  ("declaration",
     seq [$"declaration_specifiers"; optional $"_init_declarator_list";
          optional (STRING ";")]);
  ("declaration_specifiers",
     repeat1 (choice [$"storage_class_specifier"; $"type_qualifier";
                      $"function_specifier"; $"type_specifier";
                      $"alignment_specifier"]));
  ("storage_class_specifier",
     choice [STRING "auto"; STRING "register"; STRING "static"; STRING "extern";
             STRING "typedef"; STRING "_Thread_local"]);
  ("type_qualifier",
     choice [STRING "const"; STRING "restrict"; STRING "volatile";
             STRING "_Atomic"]);
  ("function_specifier", choice [STRING "inline"; STRING "_Noreturn"]);
  ("type_specifier",
     choice [STRING "void"; STRING "char"; STRING "short"; STRING "int";
             STRING "long"; STRING "float"; STRING "double"; STRING "signed";
             STRING "unsigned"; STRING "_Bool"; STRING "_Complex";
             STRING "_Imaginary";
             $"struct_specifier"; $"union_specifier"; $"enum_specifier";
             $"typedef_name"]);
  ("struct_specifier",
     choice [seq [STRING "struct"; $"identifier"; STRING "{";
                  $"struct_declaration_list"; STRING "}"];
             seq [STRING "struct"; $"identifier"]]);
  ("struct_declaration_list", repeat1 $"struct_declaration");
  ("struct_declaration",
     seq [$"specifier_qualifier_list"; $"struct_declarator_list"; STRING ";"]);
  ("specifier_qualifier_list",
     repeat1 (choice [$"type_qualifier"; $"type_specifier"]));
  ("struct_declarator_list",
     seq [$"struct_declarator"; repeat (seq [STRING ","; $"struct_declarator"])]);
  ("struct_declarator",
     choice [$"declarator";
             seq [optional $"declarator"; STRING ":"; $"constant_expression"]]);
  ("enum_specifier",
     choice [seq [STRING "enum"; $"identifier"; STRING "{"; $"enumerator_list";
                  STRING "}"];
             seq [STRING "enum"; optional $"identifier"]]);
  ("enumerator_list",
     seq [$"enumerator"; repeat (seq [STRING ","; $"enumerator"]);
          optional (STRING ",")]);
  ("enumerator",
     seq [$"enumeration_constant";
          optional (seq [STRING "="; $"constant_expression"])]);
  ("enumeration_constant", $"identifier");
  ("typedef_name", $"identifier");
  ("alignment_specifier",
     seq [STRING "_Alignas";
          choice [seq [STRING "("; $"type_name"; STRING ")"];
                  seq [STRING "("; $"constant_expression"; STRING ")"]]]);
  (* Declarators *)
  ("declarator",
     choice [$"identifier";
             seq [STRING "("; $"declarator"; STRING ")"];
             seq [$"pointer"; optional $"declarator"];
             seq [$"declarator"; STRING "["; optional $"constant_expression";
                  STRING "]"];
             seq [$"declarator"; STRING "("; $"parameter_list"; STRING ")"];
             seq [$"declarator"; STRING "("; optional $"identifier_list";
                  STRING ")"]]);
  ("pointer", seq [STRING "*"; optional $"type_qualifier_list"]);
  ("type_qualifier_list", repeat1 $"type_qualifier");
  ("parameter_list",
     seq [$"parameter_declaration";
          repeat (seq [STRING ","; $"parameter_declaration"])]);
  ("parameter_declaration",
     seq [$"declaration_specifiers";
          choice [$"declarator"; optional $"abstract_declarator"]]);
  ("identifier_list",
     seq [$"identifier"; repeat (seq [STRING ","; $"identifier"])]);
  ("type_name",
     seq [$"specifier_qualifier_list"; optional $"abstract_declarator"]);
  ("abstract_declarator",
     choice [$"pointer"; seq [$"pointer"; $"direct_abstract_declarator"];
             $"direct_abstract_declarator"]);
  ("direct_abstract_declarator",
     choice [seq [STRING "("; $"abstract_declarator"; STRING ")"];
             seq [optional $"direct_abstract_declarator"; STRING "[";
                  optional $"constant_expression"; STRING "]"];
             seq [optional $"direct_abstract_declarator"; STRING "(";
                  optional $"parameter_list"; STRING ")"]]);
  ("_init_declarator_list",
     seq [$"_init_declarator"; repeat (seq [STRING ","; $"_init_declarator"])]);
  ("_init_declarator",
     seq [$"declarator"; optional (seq [STRING "="; $"initializer"])]);
  ("initializer",
     choice [$"assignment_expression"; $"initializer_list";
             $"compound_initializer"]);
  ("initializer_list",
     seq [$"initializer"; repeat (seq [STRING ","; $"initializer"]);
          optional (STRING ",")]);
  ("compound_initializer",
     seq [STRING "{"; optional $"initializer_list"; STRING "}"]);
  (* === STATEMENTS === *)
  ("statement",
     choice [$"labeled_statement"; $"compound_statement";
             $"expression_statement"; $"selection_statement";
             $"iteration_statement"; $"jump_statement"; $"empty_statement"]);
  ("labeled_statement",
     choice [seq [$"identifier"; STRING ":"; $"statement"];
             seq [STRING "case"; $"constant_expression"; STRING ":";
                  $"statement"];
             seq [STRING "default"; STRING ":"; $"statement"]]);
  (* SIGNIFICANT INDENTATION BLOCKS *)
  ("compound_statement",
     seq [STRING ":"; $"_indent";
          repeat (choice [$"statement"; $"declaration"]);
          $"_dedent"]);
  ("expression_statement", seq [$"expression"; optional (STRING ";")]);
  ("selection_statement",
     choice [
       (* if statement with indented block *)
       seq [STRING "if"; $"parenthesized_expression"; $"compound_statement";
            optional (seq [STRING "else"; $"compound_statement"])];
       (* switch with braced body (keeps C compatibility) *)
       seq [STRING "switch"; $"parenthesized_expression"; STRING "{";
            repeat $"labeled_statement"; STRING "}"]]);
  (* Iteration statements with indentation *)
  ("iteration_statement",
     choice [
       seq [STRING "while"; $"parenthesized_expression"; $"compound_statement"];
       seq [STRING "do"; $"compound_statement"; STRING "while";
            $"parenthesized_expression"; STRING ";"];
       seq [STRING "for"; STRING "(";
            optional (choice [$"declaration"; $"expression"]);
            STRING ";"; optional $"expression";
            STRING ";"; optional $"expression";
            STRING ")"; $"compound_statement"]]);
  ("jump_statement",
     seq [choice [seq [STRING "goto"; $"identifier"];
                  seq [STRING "continue"];
                  seq [STRING "break"];
                  seq [STRING "return"; optional $"expression"]];
          optional (STRING ";")]);
  ("empty_statement", seq [STRING ";"]);
  (* === EXPRESSIONS === *)
  ("expression",
     seq [$"assignment_expression";
          repeat (seq [STRING ","; $"assignment_expression"])]);
  ("assignment_expression",
     choice [$"conditional_expression";
             seq [$"unary_expression"; $"assignment_operator";
                  $"assignment_expression"]]);
  ("assignment_operator",
     choice [STRING "="; STRING "*="; STRING "/="; STRING "%="; STRING "+=";
             STRING "-="; STRING "<<="; STRING ">>="; STRING "&="; STRING "^=";
             STRING "|="]);
  ("conditional_expression",
     seq [$"logical_or_expression";
          optional (seq [STRING "?"; $"expression"; STRING ":";
                         $"conditional_expression"])]);
  ("logical_or_expression",
     binary_expression (STRING "||") $"logical_and_expression");
  ("logical_and_expression",
     binary_expression (STRING "&&") $"inclusive_or_expression");
  ("inclusive_or_expression",
     binary_expression (STRING "|") $"exclusive_or_expression");
  ("exclusive_or_expression",
     binary_expression (STRING "^") $"and_expression");
  ("and_expression", binary_expression (STRING "&") $"equality_expression");
  ("equality_expression",
     binary_expression (choice [STRING "=="; STRING "!="])
                       $"relational_expression");
  ("relational_expression",
     binary_expression (choice [STRING "<"; STRING "<="; STRING ">"; STRING ">="])
                       $"shift_expression");
  ("shift_expression",
     binary_expression (choice [STRING "<<"; STRING ">>"])
                       $"additive_expression");
  ("additive_expression",
     binary_expression (choice [STRING "+"; STRING "-"])
                       $"multiplicative_expression");
  ("multiplicative_expression",
     binary_expression (choice [STRING "*"; STRING "/"; STRING "%"])
                       $"cast_expression");
  ("cast_expression",
     choice [seq [STRING "("; $"type_name"; STRING ")"; $"cast_expression"];
             $"unary_expression"]);
  ("unary_expression",
     choice [$"postfix_expression";
             seq [choice [STRING "++"; STRING "--"]; $"unary_expression"];
             seq [$"unary_operator"; $"cast_expression"];
             seq [STRING "sizeof";
                  choice [$"unary_expression";
                          seq [STRING "("; $"type_name"; STRING ")"]]];
             seq [STRING "_Alignof";
                  seq [STRING "("; $"type_name"; STRING ")"]]]);
  ("unary_operator",
     choice [STRING "&"; STRING "*"; STRING "+"; STRING "-"; STRING "~";
             STRING "!"]);
  ("postfix_expression",
     seq [$"primary_expression";
          repeat (choice [seq [STRING "["; $"expression"; STRING "]"];
                          seq [STRING "("; optional $"argument_expression_list";
                               STRING ")"];
                          seq [STRING "."; $"identifier"];
                          seq [STRING "->"; $"identifier"];
                          seq [STRING "++"];
                          seq [STRING "--"]])]);
  ("primary_expression",
     choice [$"identifier"; $"number_literal"; $"string_literal";
             $"character_literal"; $"parenthesized_expression";
             $"compound_literal"]);
  ("parenthesized_expression", seq [STRING "("; $"expression"; STRING ")"]);
  ("argument_expression_list",
     seq [$"assignment_expression";
          repeat (seq [STRING ","; $"assignment_expression"])]);
  ("constant_expression", $"conditional_expression");
  (* Compound literals *)
  ("compound_literal",
     seq [STRING "("; $"type_name"; STRING ")"; $"compound_initializer"]);
  ("compound_initializer",
     seq [STRING "{"; optional $"initializer_list"; STRING "}"]);
  (* === LEXICAL TOKENS === *)
  ("identifier", PATTERN re_identifier);
  ("number_literal",
     choice [PATTERN re_float; PATTERN re_integer; PATTERN re_hex;
             PATTERN re_binary; PATTERN re_octal]);
  ("string_literal", PATTERN re_string);
  ("character_literal", PATTERN re_character);
  (* Handling line continuations and comments *)
  ("_line_continuation", PATTERN re_line_continuation)
].

Definition cspaced : grammar := {|
  name := "cspaced";
  extras := [PATTERN re_space];
  (* Reserved words that function as word boundaries *)
  word := "identifier";
  (* External scanner for handling significant indentation *)
  externals := ["_indent"; "_dedent"; "_newline"];
  (* Operator precedence (same as C) *)
  precedences := [
    [PName "multiplication"; PName "addition"; PName "shift";
     PName "relational"; PName "equality"; PName "bitwise_and";
     PName "bitwise_xor"; PName "bitwise_or"; PName "logical_and";
     PName "logical_or"];
    [PName "assignment"];
    [PName "unary"];
    [PName "call"; PSym "unary_expression"];
    [PName "member"; PSym "unary_expression"];
    [PName "sizeof"; PSym "unary_expression"]];
  (* Conflict resolution for optional semicolons *)
  conflicts := [
    ["expression_statement"; "declaration"];
    ["compound_statement"; "block_item_list"]];
  rules := js_object rule_entries
|}.

End Cspaced.
Import Cspaced.

(** ** Tokens, syntax trees and derivations *)

(** A token is an occurrence of a terminal of the grammar: the anonymous
    token of a string literal, a token of a pattern (with the text it
    covers), or a token handed over by the external scanner.  Characters
    matched by [extras] lie between tokens and are not tokens. *)
Inductive token :=
| TStr (s : string)
| TPat (p : regex) (text : string)
| TExt (name : string).

Inductive tree :=
| Leaf (t : token)
| Node (kind : string) (children : list tree).

Fixpoint yield (t : tree) : list token :=
  match t with
  | Leaf k => [k]
  | Node _ cs => flat_map yield cs
  end.

Definition yields (ts : list tree) : list token := flat_map yield ts.

(** The kinds of all nodes of a tree. *)
Fixpoint kinds (t : tree) : list string :=
  match t with
  | Leaf _ => []
  | Node k cs => k :: flat_map kinds cs
  end.

(** A rule whose name starts with an underscore is hidden: it leaves no
    node of its own in the tree. *)
Definition hidden (n : string) : bool := String.prefix "_" n.

Definition rule_of (g : grammar) (n : string) : option rule :=
  js_get n (rules g).

Definition is_external (g : grammar) (n : string) : bool :=
  existsb (String.eqb n) (externals g).

(** [derives g r ts]: the rule [r] of the grammar [g] derives the sequence
    of trees [ts].  A reference to a rule that is neither defined nor
    external derives nothing. *)
Inductive derives (g : grammar) : rule -> list tree -> Prop :=
| D_blank : derives g BLANK []
| D_string s : derives g (STRING s) [Leaf (TStr s)]
| D_pattern p text :
    re_match p text = true -> derives g (PATTERN p) [Leaf (TPat p text)]
| D_named n r ts :
    rule_of g n = Some r -> hidden n = false -> derives g r ts ->
    derives g (SYMBOL n) [Node n ts]
| D_hidden n r ts :
    rule_of g n = Some r -> hidden n = true -> derives g r ts ->
    derives g (SYMBOL n) ts
| D_external n :
    rule_of g n = None -> is_external g n = true ->
    derives g (SYMBOL n) [Leaf (TExt n)]
| D_seq_nil : derives g (SEQ []) []
| D_seq_cons r rs ts1 ts2 :
    derives g r ts1 -> derives g (SEQ rs) ts2 ->
    derives g (SEQ (r :: rs)) (ts1 ++ ts2)
| D_choice r rs ts :
    In r rs -> derives g r ts -> derives g (CHOICE rs) ts
| D_repeat_nil r : derives g (REPEAT r) []
| D_repeat_cons r ts1 ts2 :
    derives g r ts1 -> derives g (REPEAT r) ts2 ->
    derives g (REPEAT r) (ts1 ++ ts2)
| D_repeat1 r ts1 ts2 :
    derives g r ts1 -> derives g (REPEAT r) ts2 ->
    derives g (REPEAT1 r) (ts1 ++ ts2).

(** ** An executable matcher for given trees *)

Definition is_nil {A} (l : list A) : bool :=
  match l with [] => true | _ => false end.

(** [run g fuel r ts] lists the remainders of [ts] after each way of
    letting [r] derive a prefix of it. *)
Fixpoint run (g : grammar) (fuel : nat) (r : rule) (ts : list tree)
  : list (list tree) :=
  match fuel with
  | 0 => []
  | S f =>
    match r with
    | BLANK => [ts]
    | STRING s =>
        match ts with
        | Leaf (TStr s') :: rest => if String.eqb s s' then [rest] else []
        | _ => []
        end
    | PATTERN p =>
        match ts with
        | Leaf (TPat p' text) :: rest =>
            if regex_eqb p p' && re_match p text then [rest] else []
        | _ => []
        end
    | SYMBOL n =>
        match rule_of g n with
        | Some body =>
            if hidden n then run g f body ts
            else match ts with
                 | Node k cs :: rest =>
                     if String.eqb n k && existsb is_nil (run g f body cs)
                     then [rest] else []
                 | _ => []
                 end
        | None =>
            match ts with
            | Leaf (TExt k) :: rest =>
                if is_external g n && String.eqb n k then [rest] else []
            | _ => []
            end
        end
    | SEQ rs =>
        (fix go (rs : list rule) (ts : list tree) : list (list tree) :=
           match rs with
           | [] => [ts]
           | r' :: rs' => flat_map (go rs') (run g f r' ts)
           end) rs ts
    | CHOICE rs => flat_map (fun r' => run g f r' ts) rs
    | REPEAT r' => ts :: flat_map (run g f (REPEAT r')) (run g f r' ts)
    | REPEAT1 r' => flat_map (run g f (REPEAT r')) (run g f r' ts)
    end
  end.

(** [accepts g fuel r ts]: [r] derives the whole of [ts]. *)
Definition accepts (g : grammar) (fuel : nat) (r : rule) (ts : list tree) : bool :=
  existsb is_nil (run g fuel r ts).

(** ** Rule references and what a derivation can contain *)

Fixpoint symbols (r : rule) : list string :=
  match r with
  | SYMBOL n => [n]
  | SEQ rs | CHOICE rs => flat_map symbols rs
  | REPEAT r' | REPEAT1 r' => symbols r'
  | BLANK | STRING _ | PATTERN _ => []
  end.

(** The names of the external tokens of a token sequence. *)
Definition ext_names (toks : list token) : list string :=
  flat_map (fun t => match t with TExt n => [n] | _ => [] end) toks.

Definition mem (s : string) (l : list string) : bool := existsb (String.eqb s) l.

Definition subset (a b : list string) : bool := forallb (fun s => mem s b) a.

(** [closedb g R]: every rule named in [R] refers to names of [R] only. *)
Definition closedb (g : grammar) (R : list string) : bool :=
  forallb (fun n => match rule_of g n with
                    | Some r => subset (symbols r) R
                    | None => true
                    end) R.

(** The names reachable from [R] through rule bodies, by [k] rounds. *)
Definition reach_step (g : grammar) (R : list string) : list string :=
  fold_left (fun acc n => if mem n acc then acc else acc ++ [n])
    (flat_map (fun n => match rule_of g n with
                        | Some r => symbols r
                        | None => []
                        end) R) R.

Definition reach (g : grammar) (k : nat) (R : list string) : list string :=
  Nat.iter k (reach_step g) R.

(** *** The shape of what [binary_expression] derives *)

(** [chain g operand ops cs]: [cs] is a tree derived from the rule
    [operand], followed by any number of pairs of an operator token of
    [ops] and such a tree. *)
Inductive chain (g : grammar) (operand : string) (ops : list string)
  : list tree -> Prop :=
| chain_one t :
    derives g (SYMBOL operand) [t] -> chain g operand ops [t]
| chain_more t o rest :
    derives g (SYMBOL operand) [t] -> In o ops ->
    chain g operand ops rest ->
    chain g operand ops (t :: Leaf (TStr o) :: rest).

(** The operator argument of [binary_expression] is one string or a choice
    of strings. *)
Definition operator_rule (ops : list string) : rule :=
  match ops with
  | [o] => STRING o
  | _ => choice (map STRING ops)
  end.


(** ** The first two terminals of a derivation *)

(** The terminals of a grammar: a token without its text. *)
Inductive terminal :=
| KStr (s : string)
| KPat (p : regex)
| KExt (n : string).

Definition terminal_of (t : token) : terminal :=
  match t with
  | TStr s => KStr s
  | TPat p _ => KPat p
  | TExt n => KExt n
  end.

Definition peq : forall a b : list nat, {a = b} + {a <> b} :=
  list_eq_dec Nat.eq_dec.

Definition pmem (x : list nat) (S : list (list nat)) : bool :=
  if in_dec peq x S then true else false.

Definition norm (S : list (list nat)) : list (list nat) := nodup peq S.

(** Concatenation of prefix sets, cut to two terminals. *)
Definition cat2 (A B : list (list nat)) : list (list nat) :=
  norm (flat_map (fun a => map (fun b => firstn 2 (a ++ b)) B) A).

Definition star2 (S : list (list nat)) : list (list nat) :=
  norm ([[]] ++ S ++ cat2 S S).

Definition env_of (tab : list (string * list (list nat))) (n : string)
  : list (list nat) :=
  match find (fun e => String.eqb n (fst e)) tab with
  | Some e => snd e
  | None => []
  end.

Section First2.
Variable g : grammar.
(** The terminals are told apart by a class number only. *)
Variable cls : terminal -> nat.

Definition pre2 (toks : list token) : list nat :=
  firstn 2 (map (fun t => cls (terminal_of t)) toks).

(** The prefixes (of at most two terminal classes) of what [r] derives,
    when [env] gives those of the named rules. *)
Fixpoint first2 (env : string -> list (list nat)) (r : rule) : list (list nat) :=
  match r with
  | BLANK => [[]]
  | STRING s => [[cls (KStr s)]]
  | PATTERN p => [[cls (KPat p)]]
  | SYMBOL n =>
      match rule_of g n with
      | Some _ => env n
      | None => if is_external g n then [[cls (KExt n)]] else []
      end
  | SEQ rs =>
      (fix go (rs : list rule) : list (list nat) :=
         match rs with
         | [] => [[]]
         | r' :: rs' => cat2 (first2 env r') (go rs')
         end) rs
  | CHOICE rs =>
      norm ((fix go (rs : list rule) : list (list nat) :=
               match rs with
               | [] => []
               | r' :: rs' => first2 env r' ++ go rs'
               end) rs)
  | REPEAT r' => star2 (first2 env r')
  | REPEAT1 r' => cat2 (first2 env r') (star2 (first2 env r'))
  end.

Definition first2_step (tab : list (string * list (list nat)))
  : list (string * list (list nat)) :=
  map (fun nr => (fst nr, first2 (env_of tab) (snd nr))) (rules g).

(** [k] rounds of the iteration from the empty sets. *)
Definition first2_table (k : nat) : list (string * list (list nat)) :=
  Nat.iter k first2_step (map (fun nr => (fst nr, [])) (rules g)).

(** [stable tab]: one more round adds nothing to [tab]. *)
Definition stable (tab : list (string * list (list nat))) : bool :=
  forallb (fun nr => forallb (fun x => pmem x (env_of tab (fst nr)))
                             (first2 (env_of tab) (snd nr)))
          (rules g).

End First2.

(** ** Source text and tokens *)

(** The characters a token covers; a token of the external scanner covers
    none. *)
Definition token_text (t : token) : string :=
  match t with
  | TStr s => s
  | TPat _ text => text
  | TExt _ => EmptyString
  end.

(** [is_extra g c]: the character [c] alone matches a pattern of [extras]. *)
Definition is_extra (g : grammar) (c : ascii) : bool :=
  existsb (fun r => match r with
                    | PATTERN p => re_match p (String c EmptyString)
                    | _ => false
                    end) (extras g).

Fixpoint all_extra (g : grammar) (s : string) : bool :=
  match s with
  | EmptyString => true
  | String c s' => is_extra g c && all_extra g s'
  end.

(** [layout g toks text]: [text] is the texts of [toks], in order, with any
    number of extras before, between and after them. *)
Inductive layout (g : grammar) : list token -> string -> Prop :=
| layout_end ws : all_extra g ws = true -> layout g [] ws
| layout_token ws t toks rest :
    all_extra g ws = true -> layout g toks rest ->
    layout g (t :: toks) (String.append ws (String.append (token_text t) rest)).

Fixpoint skip_extras (g : grammar) (s : string) : string :=
  match s with
  | EmptyString => EmptyString
  | String c s' => if is_extra g c then skip_extras g s' else s
  end.

Fixpoint strip_prefix (p s : string) : option string :=
  match p with
  | EmptyString => Some s
  | String c p' =>
      match s with
      | EmptyString => None
      | String d s' => if Ascii.eqb c d then strip_prefix p' s' else None
      end
  end.

(** Reads [toks] off [text], skipping the extras in front of each token. *)
Fixpoint lays (g : grammar) (toks : list token) (text : string) : bool :=
  match toks with
  | [] => all_extra g text
  | t :: toks' =>
      match strip_prefix (token_text t) (skip_extras g text) with
      | Some rest => lays g toks' rest
      | None => false
      end
  end.

(** The whitespace characters of ASCII: space, tab, line feed, vertical
    tab, form feed, carriage return. *)
Definition whitespace : list ascii :=
  [" "; "009"; "010"; "011"; "012"; "013"]%char.

(** The string literals of a rule. *)
Fixpoint strings (r : rule) : list string :=
  match r with
  | STRING s => [s]
  | SEQ rs | CHOICE rs => flat_map strings rs
  | REPEAT r' | REPEAT1 r' => strings r'
  | BLANK | PATTERN _ | SYMBOL _ => []
  end.

Fixpoint has_whitespace (s : string) : bool :=
  match s with
  | EmptyString => false
  | String c s' => existsb (Ascii.eqb c) whitespace || has_whitespace s'
  end.

(** ** Building trees *)

Definition lit (s : string) : tree := Leaf (TStr s).
Definition ext (n : string) : tree := Leaf (TExt n).
Definition id_token (x : string) : token := TPat re_identifier x.
Definition int_token (x : string) : token := TPat re_integer x.
Definition ident (x : string) : tree := Node "identifier" [Leaf (id_token x)].
Definition number (x : string) : tree := Node "number_literal" [Leaf (int_token x)].

(** [nest [k1; ...; kn] cs]: the node [k1] around the node [k2] ... around
    the node [kn] with the children [cs]. *)
Definition nest (ks : list string) (cs : list tree) : list tree :=
  fold_right (fun k acc => [Node k acc]) cs ks.

(** The chain of expression rules, loosest first. *)
Definition binary_levels : list string :=
  ["logical_or_expression"; "logical_and_expression";
   "inclusive_or_expression"; "exclusive_or_expression"; "and_expression";
   "equality_expression"; "relational_expression"; "shift_expression";
   "additive_expression"; "multiplicative_expression"].

Definition expression_levels : list string :=
  ["expression"; "assignment_expression"; "conditional_expression"]
  ++ binary_levels
  ++ ["cast_expression"; "unary_expression"; "postfix_expression";
      "primary_expression"].

(** The levels strictly below [k], and from [k] on. *)
Fixpoint below (k : string) (ks : list string) : list string :=
  match ks with
  | [] => []
  | k' :: ks' => if String.eqb k k' then ks' else below k ks'
  end.

Definition from (k : string) (ks : list string) : list string :=
  k :: below k ks.

Definition upto (k : string) (ks : list string) : list string :=
  firstn (length ks - length (from k ks)) ks.

(** A primary expression [leaf] as an expression of level [k]. *)
Definition as_level (k : string) (leaf : tree) : list tree :=
  nest (from k expression_levels) [leaf].

(** ** The binding ladder *)

(** Each entry: a level, its operator tokens, the level of its operands.
    Loosest first; the comma is the first entry. *)
Definition ladder : list (string * (list string * string)) := [
  ("expression", ([","], "assignment_expression"));
  ("logical_or_expression", (["||"], "logical_and_expression"));
  ("logical_and_expression", (["&&"], "inclusive_or_expression"));
  ("inclusive_or_expression", (["|"], "exclusive_or_expression"));
  ("exclusive_or_expression", (["^"], "and_expression"));
  ("and_expression", (["&"], "equality_expression"));
  ("equality_expression", (["=="; "!="], "relational_expression"));
  ("relational_expression", (["<"; "<="; ">"; ">="], "shift_expression"));
  ("shift_expression", (["<<"; ">>"], "additive_expression"));
  ("additive_expression", (["+"; "-"], "multiplicative_expression"));
  ("multiplicative_expression", (["*"; "/"; "%"], "cast_expression"))
].

(** The names of the first list of [precedences] and the levels they
    stand for. *)
Definition precedence_levels : list (string * string) := [
  ("multiplication", "multiplicative_expression");
  ("addition", "additive_expression");
  ("shift", "shift_expression");
  ("relational", "relational_expression");
  ("equality", "equality_expression");
  ("bitwise_and", "and_expression");
  ("bitwise_xor", "exclusive_or_expression");
  ("bitwise_or", "inclusive_or_expression");
  ("logical_and", "logical_and_expression");
  ("logical_or", "logical_or_expression")
].


(** What stands for one item of a block in [compound_statement]. *)
Definition block_item : rule := choice [$"statement"; $"declaration"].

(** ** The inputs of the examples *)

Definition nl : string := String "010"%char EmptyString.

(** [( e )] *)
Definition parenthesized (e : list tree) : tree :=
  Node "parenthesized_expression" (lit "(" :: e ++ [lit ")"]).

(** A block with the given items. *)
Definition block (items : list tree) : tree :=
  Node "compound_statement" (lit ":" :: ext "_indent" :: items ++ [ext "_dedent"]).

(** An item of a block is a statement node or a declaration node. *)
Definition is_item (t : tree) : Prop :=
  exists cs, t = Node "statement" cs \/ t = Node "declaration" cs.

(** [is_block t]: [t] is a block in the indentation form. *)
Definition is_block (t : tree) : Prop :=
  exists items, t = block items /\ Forall is_item items.

(** [return e] as a statement. *)
Definition return_statement (e : list tree) : tree :=
  Node "statement" [Node "jump_statement" (lit "return" :: e)].

(** *** [if (n <= 1):] and, one level deeper, [return n] *)


Definition if_tokens : list token :=
  [TStr "if"; TStr "("; id_token "n"; TStr "<="; int_token "1"; TStr ")";
   TStr ":"; TExt "_indent"; TStr "return"; id_token "n"; TExt "_dedent"].

Definition if_condition : tree :=
  parenthesized
    (nest (upto "relational_expression" expression_levels)
       [Node "relational_expression"
          (as_level "shift_expression" (ident "n")
           ++ [lit "<="]
           ++ as_level "shift_expression" (number "1"))]).

Definition if_block : tree :=
  block [return_statement (as_level "expression" (ident "n"))].

Definition if_tree : tree :=
  Node "statement" [Node "selection_statement" [lit "if"; if_condition; if_block]].



(** *** An empty block *)

Definition empty_block : tree := block [].



(** *** [switch (x) { case 1: foo() case 2: bar() }] *)



Definition switch_text : string := "switch (x) { case 1: foo() case 2: bar() }".




(** *** [f x] and [f(x)] *)

Definition type_named (f : string) : tree :=
  Node "declaration_specifiers"
    [Node "type_specifier" [Node "typedef_name" [ident f]]].






(** Replaces the text of the identifier tokens: [a] by [a'], [b] by [b']. *)
Definition rename (a a' b b' : string) (t : token) : token :=
  match t with
  | TPat p text =>
      if regex_eqb p re_identifier then
        if String.eqb text a then TPat p a'
        else if String.eqb text b then TPat p b'
        else t
      else t
  | _ => t
  end.


Fixpoint rename_tree (f : token -> token) (t : tree) : tree :=
  match t with
  | Leaf k => Leaf (f k)
  | Node k cs => Node k (map (rename_tree f) cs)
  end.

(** *** [a - b - c] *)

Definition minus_tokens : list token :=
  [id_token "a"; TStr "-"; id_token "b"; TStr "-"; id_token "c"].

Definition minus_flat : tree :=
  Node "additive_expression"
    (as_level "multiplicative_expression" (ident "a")
     ++ [lit "-"] ++ as_level "multiplicative_expression" (ident "b")
     ++ [lit "-"] ++ as_level "multiplicative_expression" (ident "c")).

(** [a = b = c] *)
Definition assign_tokens : list token :=
  [id_token "a"; TStr "="; id_token "b"; TStr "="; id_token "c"].

Definition assign_to (x : string) (value : tree) : tree :=
  Node "assignment_expression"
    (as_level "unary_expression" (ident x)
     ++ [Node "assignment_operator" [lit "="]; value]).

Definition assign_nested : tree :=
  assign_to "a"
    (assign_to "b"
       (Node "assignment_expression"
          (as_level "conditional_expression" (ident "c")))).

(** *** [int main(void):] and, one level deeper, [return 0] *)

Definition main_text : string :=
  String.append "int main(void):" (String.append nl "    return 0").

Definition main_header_tokens : list token :=
  [TStr "int"; id_token "main"; TStr "("; TStr "void"; TStr ")"].

Definition main_body_tokens : list token :=
  [TStr ":"; TExt "_indent"; TStr "return"; int_token "0"; TExt "_dedent"].

Definition main_tokens : list token := main_header_tokens ++ main_body_tokens.

Definition main_header : tree :=
  Node "declaration"
    [Node "declaration_specifiers" [Node "type_specifier" [lit "int"]];
     Node "declarator"
       [Node "declarator" [ident "main"]; lit "(";
        Node "parameter_list"
          [Node "parameter_declaration"
             [Node "declaration_specifiers"
                [Node "type_specifier" [lit "void"]]]];
        lit ")"]].

Definition main_body : tree :=
  block [return_statement (as_level "expression" (number "0"))].

(** *** [int x;] as a whole file *)

Definition int_x_tokens : list token := [TStr "int"; id_token "x"; TStr ";"].

Definition int_x_unit : tree :=
  Node "translation_unit"
    [Node "external_declaration"
       [Node "declaration"
          [Node "declaration_specifiers" [Node "type_specifier" [lit "int"]];
           Node "declarator" [ident "x"]; lit ";"]]].

(** *** [x] followed by the scanner's [_newline] *)

Definition newline_tokens : list token := [id_token "x"; TExt "_newline"].

(** ** Tables of the analyses *)

(** The names reachable from the start rule, and from all rules. *)
Definition unit_names : list string :=
  Eval vm_compute in reach cspaced 30 ["translation_unit"].

Definition all_names : list string :=
  Eval vm_compute in reach cspaced 30 (map fst (rules cspaced)).

(** Identifier tokens against all other terminals. *)
Definition id_cls (k : terminal) : nat :=
  match k with
  | KPat p => if regex_eqb p re_identifier then 1 else 0
  | _ => 0
  end.

Definition id_table : list (string * list (list nat)) :=
  Eval vm_compute in first2_table cspaced id_cls 40.

(** Identifier tokens, the token ['-'], and all other terminals. *)
Definition minus_cls (k : terminal) : nat :=
  match k with
  | KPat p => if regex_eqb p re_identifier then 1 else 0
  | KStr s => if String.eqb s "-" then 2 else 0
  | KExt _ => 0
  end.

Definition minus_table : list (string * list (list nat)) :=
  Eval vm_compute in first2_table cspaced minus_cls 40.

(** ** Rules that are referred to and not defined *)

(** Pairs of a rule and a name its body refers to. *)
Definition dangling : list (string * string) := [
  ("external_declaration", "function_definition");
  ("type_specifier", "union_specifier");
  ("_preproc_define_value", "_parenthesized_parameter_list")
].

(** [refers g n k]: the body of the rule [n] refers to [k]. *)
Definition refers (g : grammar) (n k : string) : bool :=
  match rule_of g n with
  | Some body => mem k (symbols body)
  | None => false
  end.

(** The statement bodies whose end is an optional [';']. *)
Definition declaration_head : rule :=
  seq [$"declaration_specifiers"; optional $"_init_declarator_list"].

Definition jump_head : rule :=
  choice [seq [STRING "goto"; $"identifier"];
          seq [STRING "continue"];
          seq [STRING "break"];
          seq [STRING "return"; optional $"expression"]].

Definition semicolon : list tree := [Leaf (TStr ";")].



(** * Further definitions *)

(** ** The language of a regular expression *)

(** [lang r s]: the text [s] is a text of [r], in the usual sense. *)
Inductive lang : regex -> string -> Prop :=
| L_eps : lang REps EmptyString
| L_char c : lang (RChar c) (String c EmptyString)
| L_any c : is_line_terminator c = false -> lang RAny (String c EmptyString)
| L_cls k c : in_cls k c = true -> lang (RCls k) (String c EmptyString)
| L_set neg rs c :
    xorb neg (existsb (in_range c) rs) = true ->
    lang (RSet neg rs) (String c EmptyString)
| L_seq a b s1 s2 :
    lang a s1 -> lang b s2 -> lang (RSeq a b) (String.append s1 s2)
| L_alt_l a b s : lang a s -> lang (RAlt a b) s
| L_alt_r a b s : lang b s -> lang (RAlt a b) s
| L_star_nil a : lang (RStar a) EmptyString
| L_star_more a s1 s2 :
    lang a s1 -> lang (RStar a) s2 -> lang (RStar a) (String.append s1 s2)
| L_plus a s1 s2 :
    lang a s1 -> lang (RStar a) s2 -> lang (RPlus a) (String.append s1 s2).

(** [all_chars P s]: every character of [s] satisfies [P]. *)
Fixpoint all_chars (P : ascii -> bool) (s : string) : bool :=
  match s with
  | EmptyString => true
  | String c s' => P c && all_chars P s'
  end.

Definition is_digit (c : ascii) : bool := in_cls Digit c.

Definition first_char (s : string) : option ascii :=
  match s with
  | EmptyString => None
  | String c _ => Some c
  end.

Fixpoint last_char (s : string) : option ascii :=
  match s with
  | EmptyString => None
  | String c EmptyString => Some c
  | String _ s' => last_char s'
  end.

(** [dead r]: by its form alone, [r] has no text. *)
Fixpoint dead (r : regex) : bool :=
  match r with
  | RNone => true
  | RSeq a _ => dead a
  | RAlt a b => dead a && dead b
  | _ => false
  end.

(** The patterns of [number_literal], in the order of its [choice]. *)
Definition number_alternatives : list regex :=
  [re_float; re_integer; re_hex; re_binary; re_octal].

Definition not_line_terminator (c : ascii) : bool :=
  negb (is_line_terminator c).

(** The directives whose argument is one [/.+/] token. *)
Definition line_directives : list (string * string) := [
  ("preproc_if", "#if");
  ("preproc_pragma", "#pragma");
  ("preproc_line", "#line");
  ("preproc_error", "#error")
].

(** [q body q]. *)
Definition quoted (q : ascii) (body : string) : string :=
  String q (String.append body (String q EmptyString)).

(** A character that is neither the quote [q] nor a backslash. *)
Definition plain (q : ascii) (c : ascii) : bool :=
  negb (Ascii.eqb c q) && negb (Ascii.eqb c "\"%char).

(** The two quoted literals: the quote character and the pattern. *)
Definition quoted_literals : list (ascii * regex) :=
  [("034"%char, re_string); ("'"%char, re_character)].

(** ** Statements and the start rule *)

Definition statement_kinds : list string :=
  ["statement"; "labeled_statement"; "compound_statement";
   "expression_statement"; "selection_statement"; "iteration_statement";
   "jump_statement"].

Definition empty_unit : tree := Node "translation_unit" [].

(** ** Brackets and blocks *)

Definition terminal_eqb (a b : terminal) : bool :=
  match a, b with
  | KStr s, KStr s' => String.eqb s s'
  | KPat p, KPat p' => regex_eqb p p'
  | KExt n, KExt n' => String.eqb n n'
  | _, _ => false
  end.

(** The pairs of an opening and a closing terminal. *)
Definition bracket_pairs : list (terminal * terminal) := [
  (KStr "(", KStr ")");
  (KStr "[", KStr "]");
  (KStr "{", KStr "}");
  (KExt "_indent", KExt "_dedent")
].

Section Nesting.
(** The opening and the closing terminal. *)
Variables opening closing : terminal.

(** [depth_after d toks]: the nesting depth after [toks], starting at the
    depth [d]; [None] when a closing token comes at depth [0]. *)
Fixpoint depth_after (d : nat) (toks : list token) : option nat :=
  match toks with
  | [] => Some d
  | t :: toks' =>
      if terminal_eqb (terminal_of t) opening then depth_after (S d) toks'
      else if terminal_eqb (terminal_of t) closing then
        match d with
        | 0 => None
        | S d' => depth_after d' toks'
        end
      else depth_after d toks'
  end.

(** An effect [(need, gain)] on the depth: it takes [need] levels to be
    open, closes them, and opens [gain] levels. *)
Definition apply_effect (e : nat * nat) (d : nat) : option nat :=
  if Nat.leb (fst e) d then Some (d - fst e + snd e) else None.

Definition then_effect (e1 e2 : nat * nat) : nat * nat :=
  if Nat.leb (fst e2) (snd e1)
  then (fst e1, snd e1 - fst e2 + snd e2)
  else (fst e1 + (fst e2 - snd e1), snd e2).

Definition terminal_effect (k : terminal) : nat * nat :=
  if terminal_eqb k opening then (0, 1)
  else if terminal_eqb k closing then (1, 0)
  else (0, 0).

Definition effect_eqb (a b : nat * nat) : bool :=
  Nat.eqb (fst a) (fst b) && Nat.eqb (snd a) (snd b).

(** The effect of every derivation of [r], when it is the same for all of
    them and every named rule has no effect. *)
Fixpoint effect (g : grammar) (r : rule) : option (nat * nat) :=
  match r with
  | BLANK => Some (0, 0)
  | STRING s => Some (terminal_effect (KStr s))
  | PATTERN p => Some (terminal_effect (KPat p))
  | SYMBOL n =>
      match rule_of g n with
      | Some _ => Some (0, 0)
      | None => Some (terminal_effect (KExt n))
      end
  | SEQ rs =>
      (fix go (rs : list rule) : option (nat * nat) :=
         match rs with
         | [] => Some (0, 0)
         | r' :: rs' =>
             match effect g r', go rs' with
             | Some e1, Some e2 => Some (then_effect e1 e2)
             | _, _ => None
             end
         end) rs
  | CHOICE rs =>
      match rs with
      | [] => Some (0, 0)
      | r' :: rs' =>
          match effect g r' with
          | Some e =>
              if forallb (fun q => match effect g q with
                                   | Some e' => effect_eqb e' e
                                   | None => false
                                   end) rs'
              then Some e else None
          | None => None
          end
      end
  | REPEAT r' | REPEAT1 r' =>
      match effect g r' with
      | Some e => if effect_eqb e (0, 0) then Some (0, 0) else None
      | None => None
      end
  end.

(** [balanced g]: the body of every rule of [g] has no effect. *)
Definition balanced (g : grammar) : bool :=
  forallb (fun nr => match effect g (snd nr) with
                     | Some e => effect_eqb e (0, 0)
                     | None => false
                     end) (rules g).

End Nesting.

(** ** Nesting without bound *)

(** [d] in [n] pairs of parentheses, as a declarator. *)
Definition declarator_in_parentheses (n : nat) (d : tree) : tree :=
  Nat.iter n (fun d' => Node "declarator" [lit "("; d'; lit ")"]) d.

(** [n] stars in front of the declarator [d]. *)
Definition pointer_to (n : nat) (d : tree) : tree :=
  Nat.iter n (fun d' => Node "declarator" [Node "pointer" [lit "*"]; d']) d.

(** The expression [e] in [n] pairs of parentheses, as an expression. *)
Definition in_parentheses (n : nat) (e : list tree) : list tree :=
  Nat.iter n (fun e' => as_level "expression" (parenthesized e')) e.

(** An initializer under [n] more pairs of an [initializer] node and an
    [initializer_list] node. *)
Definition relisted (n : nat) (t : tree) : tree :=
  Nat.iter n (fun t' => Node "initializer" [Node "initializer_list" [t']]) t.

(** The declaration of [fp] as a pointer, in parentheses, to a function
    of two [int] parameters that returns [int]. *)
Definition fp_tokens : list token :=
  [TStr "int"; TStr "("; TStr "*"; id_token "fp"; TStr ")";
   TStr "("; TStr "int"; TStr ","; TStr "int"; TStr ")"].

Definition int_parameter : tree :=
  Node "parameter_declaration"
    [Node "declaration_specifiers" [Node "type_specifier" [lit "int"]]].

Definition fp_declaration : tree :=
  Node "declaration"
    [Node "declaration_specifiers" [Node "type_specifier" [lit "int"]];
     Node "declarator"
       [declarator_in_parentheses 1
          (pointer_to 1 (Node "declarator" [ident "fp"]));
        lit "(";
        Node "parameter_list" [int_parameter; lit ","; int_parameter];
        lit ")"]].

(** ** The first token of a statement *)

(** The tokens that tell the kind of a statement, and the braces. *)
Definition keywords : list string :=
  ["if"; "switch"; "while"; "do"; "for"; "goto"; "continue"; "break";
   "return"; ";"; ":"; "case"; "default"; "{"; "}"].

(** The position of [s] in [l], counted from [i]; [0] when it is absent. *)
Fixpoint index_from (i : nat) (s : string) (l : list string) : nat :=
  match l with
  | [] => 0
  | x :: l' => if String.eqb s x then i else index_from (S i) s l'
  end.

(** Identifier tokens are [1], the keywords are [2] and up, all other
    terminals are [0]. *)
Definition keyword_cls (k : terminal) : nat :=
  match k with
  | KPat p => if regex_eqb p re_identifier then 1 else 0
  | KStr s => index_from 2 s keywords
  | KExt _ => 0
  end.

Definition keyword_table : list (string * list (list nat)) :=
  Eval vm_compute in first2_table cspaced keyword_cls 40.

(** The first token of a statement and the kind of statement it starts. *)
Definition dispatch : list (string * string) := [
  ("if", "selection_statement");
  ("switch", "selection_statement");
  ("while", "iteration_statement");
  ("do", "iteration_statement");
  ("for", "iteration_statement");
  ("goto", "jump_statement");
  ("continue", "jump_statement");
  ("break", "jump_statement");
  ("return", "jump_statement");
  (";", "empty_statement");
  (":", "compound_statement");
  ("case", "labeled_statement");
  ("default", "labeled_statement")
].

(** [heads c S]: some prefix of [S] starts with the class [c]. *)
Definition heads (c : nat) (S : list (list nat)) : bool :=
  existsb (fun p => match p with
                    | c' :: _ => Nat.eqb c' c
                    | [] => false
                    end) S.

(** [do] with an empty block, [while (x)], and no [';']. *)
Definition do_tokens : list token :=
  [TStr "do"; TStr ":"; TExt "_indent"; TExt "_dedent";
   TStr "while"; TStr "("; id_token "x"; TStr ")"].

Definition do_statement : tree :=
  Node "statement"
    [Node "iteration_statement"
       [lit "do"; empty_block; lit "while";
        parenthesized (as_level "expression" (ident "x")); lit ";"]].

(** ** Patterns in use *)

(** The patterns of a rule. *)
Fixpoint patterns (r : rule) : list regex :=
  match r with
  | PATTERN p => [p]
  | SEQ rs | CHOICE rs => flat_map patterns rs
  | REPEAT r' | REPEAT1 r' => patterns r'
  | BLANK | STRING _ | SYMBOL _ => []
  end.

(** [uses g R p]: the body of some rule named in [R] holds the pattern [p]. *)
Definition uses (g : grammar) (R : list string) (p : regex) : bool :=
  existsb (fun n => match rule_of g n with
                    | Some body => existsb (regex_eqb p) (patterns body)
                    | None => false
                    end) R.

(** The names reachable from the rules other than [_line_continuation]. *)
Definition names_in_use : list string :=
  Eval vm_compute in
    reach cspaced 30
      (filter (fun n => negb (String.eqb n "_line_continuation"))
              (map fst (rules cspaced))).

Definition backslash : ascii := "\"%char.

(** ** Top-level items, tags and directives *)

(** What an [external_declaration] node holds. *)
Definition external_kinds : list string :=
  ["declaration"; "preproc_directive"; "empty_statement"].

(** [is_unit_item t]: [t] is an [external_declaration] node around one
    node of [external_kinds], or an [empty_statement] node. *)
Definition is_unit_item (t : tree) : Prop :=
  (exists k x, t = Node "external_declaration" [Node k x] /\ In k external_kinds)
  \/ t = Node "empty_statement" [Leaf (TStr ";")].

Definition semicolon_item : tree := Node "empty_statement" [Leaf (TStr ";")].

(** The children of [struct point { int x; }]. *)
Definition struct_point : list tree :=
  [lit "struct"; ident "point"; lit "{";
   Node "struct_declaration_list"
     [Node "struct_declaration"
        [Node "specifier_qualifier_list" [Node "type_specifier" [lit "int"]];
         Node "struct_declarator_list"
           [Node "struct_declarator" [Node "declarator" [ident "x"]]];
         lit ";"]];
   lit "}"].

(** The children of [#define MAX(a, b) a] and of [#include <stdio.h>], the
    rest of the line in one token. *)
Definition define_max : list tree :=
  [lit "#define"; ident "MAX"; Leaf (TPat re_rest_of_line "(a, b) a")].

Definition include_stdio : list tree :=
  [lit "#include"; lit "<"; Leaf (TPat re_rest_of_line "stdio.h"); lit ">"].
(** * The definitions at work *)

Example identifier_pattern :
  re_match re_identifier "MyType" = true /\
  re_match re_identifier "_x1" = true /\
  re_match re_identifier "1x" = false /\
  re_match re_identifier "" = false.
Proof. repeat split; reflexivity. Qed.

Example number_patterns :
  re_match re_integer "42" = true /\
  re_match re_float "3.14" = true /\
  re_match re_hex "0x1F" = true /\
  re_match re_binary "0b101" = true /\
  re_match re_octal "017" = true /\
  re_match re_integer "4a" = false.
Proof. repeat split; reflexivity. Qed.

Example quoted_patterns :
  re_match re_string (String.append dquote (String.append "a b\n" dquote)) = true /\
  re_match re_string (String.append dquote "open") = false /\
  re_match re_character "'c'" = true.
Proof. repeat split; reflexivity. Qed.

Example rest_of_line_pattern :
  re_match re_rest_of_line "stdio.h" = true /\
  re_match re_rest_of_line (String.append "a" (String.append nl "b")) = false.
Proof. split; reflexivity. Qed.

(** [compound_initializer] is written twice in the source, with the same
    body: the object has one entry for it. *)
Example rules_object :
  length rule_entries = 84 /\ length (rules cspaced) = 83 /\
  rule_of cspaced "compound_initializer"
  = Some (seq [STRING "{"; optional $"initializer_list"; STRING "}"]).
Proof. repeat split. Qed.

(** The start rule derives [int x;]. *)
Example int_x_is_a_unit :
  accepts cspaced 200 $"translation_unit" [int_x_unit] = true /\
  yield int_x_unit = int_x_tokens /\
  lays cspaced int_x_tokens "int x;" = true.
Proof. repeat split. Qed.

(** * Properties of derivations *)

Lemma regex_eqb_eq a b : regex_eqb a b = true -> a = b.
Proof. unfold regex_eqb. destruct (regex_eq_dec a b); [auto | discriminate]. Qed.


(** ** Soundness of the matcher *)

Section Matcher.
Variable g : grammar.

Lemma existsb_is_nil (l : list (list tree)) :
  existsb is_nil l = true -> In [] l.
Proof.
  induction l as [|x l IH]; simpl; [discriminate|].
  destruct x; simpl; auto.
Qed.

Lemma run_sound fuel : forall r ts rest,
  In rest (run g fuel r ts) ->
  exists pre, ts = pre ++ rest /\ derives g r pre.
Proof.
  induction fuel as [|f IH]; intros r ts rest Hin; [contradiction|].
  destruct r as [|s|p|n|rs|rs|r'|r']; simpl in Hin.
  - destruct Hin as [<-|[]]. exists []. split; [reflexivity|constructor].
  - destruct ts as [|[[s'|?|?]|] rest']; try contradiction.
    destruct (String.eqb s s') eqn:E; [|contradiction].
    apply String.eqb_eq in E; subst s'. destruct Hin as [<-|[]].
    exists [Leaf (TStr s)]. split; [reflexivity|constructor].
  - destruct ts as [|[[|p' text|]|] rest']; try contradiction.
    destruct (regex_eqb p p' && re_match p text) eqn:E; [|contradiction].
    apply andb_prop in E as [E1 E2]. apply regex_eqb_eq in E1; subst p'.
    destruct Hin as [<-|[]].
    exists [Leaf (TPat p text)]. split; [reflexivity|now constructor].
  - destruct (rule_of g n) as [body|] eqn:R.
    + destruct (hidden n) eqn:Hd.
      * apply IH in Hin as (pre & -> & D). exists pre. split; [reflexivity|].
        eapply D_hidden; eauto.
      * destruct ts as [|[|k cs] rest']; try contradiction.
        destruct (String.eqb n k && existsb is_nil (run g f body cs)) eqn:E;
          [|contradiction].
        apply andb_prop in E as [E1 E2]. apply String.eqb_eq in E1; subst k.
        destruct Hin as [<-|[]].
        apply existsb_is_nil, IH in E2 as (pre & Hcs & D).
        rewrite app_nil_r in Hcs; subst pre.
        exists [Node n cs]. split; [reflexivity|]. eapply D_named; eauto.
    + destruct ts as [|[[| |k]|] rest']; try contradiction.
      destruct (is_external g n && String.eqb n k) eqn:E; [|contradiction].
      apply andb_prop in E as [E1 E2]. apply String.eqb_eq in E2; subst k.
      destruct Hin as [<-|[]].
      exists [Leaf (TExt n)]. split; [reflexivity|now constructor].
  - revert ts Hin. induction rs as [|r1 rs IHrs]; intros ts Hin.
    + destruct Hin as [<-|[]]. exists []. split; [reflexivity|constructor].
    + apply in_flat_map in Hin as (mid & H1 & H2).
      apply IH in H1 as (pre1 & -> & D1).
      apply IHrs in H2 as (pre2 & -> & D2).
      exists (pre1 ++ pre2). split; [now rewrite app_assoc|now constructor].
  - apply in_flat_map in Hin as (r' & Hr & H1).
    apply IH in H1 as (pre & -> & D). exists pre. split; [reflexivity|].
    econstructor; eauto.
  - destruct Hin as [<-|Hin].
    + exists []. split; [reflexivity|constructor].
    + apply in_flat_map in Hin as (mid & H1 & H2).
      apply IH in H1 as (pre1 & -> & D1).
      apply IH in H2 as (pre2 & -> & D2).
      exists (pre1 ++ pre2). split; [now rewrite app_assoc|now constructor].
  - apply in_flat_map in Hin as (mid & H1 & H2).
    apply IH in H1 as (pre1 & -> & D1).
    apply IH in H2 as (pre2 & -> & D2).
    exists (pre1 ++ pre2). split; [now rewrite app_assoc|now constructor].
Qed.

(** What the matcher accepts is derivable. *)
Lemma accepts_sound fuel r ts :
  accepts g fuel r ts = true -> derives g r ts.
Proof.
  intros H. apply existsb_is_nil, run_sound in H as (pre & E & D).
  rewrite app_nil_r in E. now subst pre.
Qed.

End Matcher.

(** ** Closed sets of names *)

Lemma mem_In s l : mem s l = true <-> In s l.
Proof.
  unfold mem. rewrite existsb_exists. split.
  - intros (x & Hx & E). apply String.eqb_eq in E. now subst.
  - intros H. exists s. split; [assumption|apply String.eqb_refl].
Qed.

Lemma subset_incl a b : subset a b = true -> incl a b.
Proof.
  unfold subset. rewrite forallb_forall. intros H x Hx.
  apply mem_In. auto.
Qed.

Lemma js_get_In k o v : js_get k o = Some v -> In (k, v) o.
Proof.
  induction o as [|[k' v'] o IH]; simpl; [discriminate|].
  destruct (String.eqb k k') eqn:E.
  - apply String.eqb_eq in E. subst k'. intros [= ->]. now left.
  - intros H. right. auto.
Qed.

Lemma yields_app (a b : list tree) : yields (a ++ b) = yields a ++ yields b.
Proof. apply flat_map_app. Qed.

Lemma ext_names_app (a b : list token) :
  ext_names (a ++ b) = ext_names a ++ ext_names b.
Proof. apply flat_map_app. Qed.

Lemma In_ext_names e toks : In e (ext_names toks) <-> In (TExt e) toks.
Proof.
  unfold ext_names. rewrite in_flat_map. split.
  - intros (t & Ht & He). destruct t; try contradiction.
    destruct He as [<-|[]]. assumption.
  - intros H. exists (TExt e). split; [assumption|now left].
Qed.

Lemma symbols_choice r rs : In r rs -> incl (symbols r) (symbols (CHOICE rs)).
Proof.
  intros Hr x Hx. simpl. apply in_flat_map. now exists r.
Qed.

Section Closure.
Variable g : grammar.
Variable R : list string.
Hypothesis closed : closedb g R = true.

Lemma closed_body n r :
  In n R -> rule_of g n = Some r -> incl (symbols r) R.
Proof.
  intros Hn Hr. unfold closedb in closed. rewrite forallb_forall in closed.
  specialize (closed _ Hn). rewrite Hr in closed. now apply subset_incl.
Qed.

(** A derivation from a rule that refers to names of a closed set only
    builds nodes and takes external tokens of that set only. *)
Lemma derives_closed r ts :
  derives g r ts -> incl (symbols r) R ->
  incl (flat_map kinds ts) R /\ incl (ext_names (yields ts)) R.
Proof.
  induction 1 as [ | s | p text Hm | n r ts Hr Hh D IH | n r ts Hr Hh D IH
                 | n Hr He | | r rs ts1 ts2 D1 IH1 D2 IH2 | r rs ts Hin D IH
                 | r | r ts1 ts2 D1 IH1 D2 IH2 | r ts1 ts2 D1 IH1 D2 IH2 ];
    intros Hs; simpl in *;
    try (split; intros x []; fail).
  - assert (Hn : In n R) by (apply Hs; now left).
    destruct (IH (closed_body n r Hn Hr)) as [IHa IHb].
    rewrite !app_nil_r. split; [|assumption].
    intros x [<-|Hx]; auto.
  - assert (Hn : In n R) by (apply Hs; now left).
    exact (IH (closed_body n r Hn Hr)).
  - split; [intros x []|]. intros x [<-|[]]. apply Hs. now left.
  - apply incl_app_inv in Hs as [Hs1 Hs2].
    destruct (IH1 Hs1) as [A1 B1]. destruct (IH2 Hs2) as [A2 B2].
    rewrite flat_map_app, yields_app, ext_names_app.
    split; apply incl_app; assumption.
  - apply IH. intros x Hx. apply Hs. apply in_flat_map. now exists r.
  - destruct (IH1 Hs) as [A1 B1]. destruct (IH2 Hs) as [A2 B2].
    rewrite flat_map_app, yields_app, ext_names_app.
    split; apply incl_app; assumption.
  - destruct (IH1 Hs) as [A1 B1]. destruct (IH2 Hs) as [A2 B2].
    rewrite flat_map_app, yields_app, ext_names_app.
    split; apply incl_app; assumption.
Qed.

End Closure.

(** Nodes are built for defined rules only, and external tokens are taken
    for declared externals without a rule only. *)
Lemma derives_defined g r ts :
  derives g r ts ->
  (forall k, In k (flat_map kinds ts) -> rule_of g k <> None) /\
  (forall e, In (TExt e) (yields ts) ->
             is_external g e = true /\ rule_of g e = None).
Proof.
  induction 1 as [ | s | p text Hm | n r ts Hr Hh D IH | n r ts Hr Hh D IH
                 | n Hr He | | r rs ts1 ts2 D1 IH1 D2 IH2 | r rs ts Hin D IH
                 | r | r ts1 ts2 D1 IH1 D2 IH2 | r ts1 ts2 D1 IH1 D2 IH2 ];
    simpl;
    try (split; [intros k []|intros e []]; fail);
    try (rewrite flat_map_app, yields_app;
         destruct IH1 as [A1 B1], IH2 as [A2 B2];
         split; [intros k Hk|intros e Hk];
         apply in_app_or in Hk as [Hk|Hk]; auto; fail);
    try assumption.
  - split; [intros k []|]. intros e [E|[]]. discriminate.
  - split; [intros k []|]. intros e [E|[]]. discriminate.
  - destruct IH as [A B]. rewrite !app_nil_r. split; [|assumption].
    intros k [<-|Hk]; [congruence|auto].
  - split; [intros k []|]. intros e [[= <-]|[]]. auto.
Qed.

(** ** Inversion of derivations *)

Section Inversion.
Variable g : grammar.

Lemma inv_blank ts : derives g BLANK ts -> ts = [].
Proof. now inversion 1. Qed.

Lemma inv_string s ts : derives g (STRING s) ts -> ts = [Leaf (TStr s)].
Proof. now inversion 1. Qed.

Lemma inv_pattern p ts :
  derives g (PATTERN p) ts ->
  exists text, ts = [Leaf (TPat p text)] /\ re_match p text = true.
Proof. inversion 1; subst. eauto. Qed.

Lemma inv_named n r ts :
  rule_of g n = Some r -> hidden n = false -> derives g (SYMBOL n) ts ->
  exists cs, ts = [Node n cs] /\ derives g r cs.
Proof.
  intros Hr Hh D. inversion D; subst; try congruence.
  exists ts0. split; [reflexivity|congruence].
Qed.

Lemma inv_hidden n r ts :
  rule_of g n = Some r -> hidden n = true -> derives g (SYMBOL n) ts ->
  derives g r ts.
Proof. intros Hr Hh D. inversion D; subst; congruence. Qed.

Lemma inv_undefined n ts :
  rule_of g n = None -> derives g (SYMBOL n) ts ->
  ts = [Leaf (TExt n)] /\ is_external g n = true.
Proof. intros Hr D. inversion D; subst; try congruence. auto. Qed.

Lemma inv_seq_nil ts : derives g (SEQ []) ts -> ts = [].
Proof. now inversion 1. Qed.

Lemma inv_seq_cons r rs ts :
  derives g (SEQ (r :: rs)) ts ->
  exists a b, ts = a ++ b /\ derives g r a /\ derives g (SEQ rs) b.
Proof. inversion 1; subst. eauto. Qed.

Lemma inv_choice rs ts :
  derives g (CHOICE rs) ts -> exists r, In r rs /\ derives g r ts.
Proof. inversion 1; subst. eauto. Qed.

Lemma inv_repeat1 r ts :
  derives g (REPEAT1 r) ts ->
  exists a b, ts = a ++ b /\ derives g r a /\ derives g (REPEAT r) b.
Proof. inversion 1; subst. eauto. Qed.

(** Induction over the rounds of a repetition. *)
Lemma repeat_rounds (P : list tree -> Prop) r :
  P [] ->
  (forall a b, derives g r a -> derives g (REPEAT r) b -> P b -> P (a ++ b)) ->
  forall ts, derives g (REPEAT r) ts -> P ts.
Proof.
  intros H0 Hstep ts D. remember (REPEAT r) as q eqn:Eq.
  induction D; try discriminate; injection Eq as ->; auto.
Qed.

Lemma inv_optional r ts :
  derives g (optional r) ts -> ts = [] \/ derives g r ts.
Proof.
  intros D. apply inv_choice in D as (q & [<-|[<-|[]]] & D); [now right|].
  left. now apply inv_blank.
Qed.

Lemma operator_shape ops ts :
  derives g (operator_rule ops) ts ->
  exists o, ts = [Leaf (TStr o)] /\ In o ops.
Proof.
  assert (Hc : derives g (choice (map STRING ops)) ts ->
               exists o, ts = [Leaf (TStr o)] /\ In o ops).
  { intros D. apply inv_choice in D as (q & Hq & D).
    apply in_map_iff in Hq as (o & <- & Ho). apply inv_string in D. eauto. }
  destruct ops as [|o [|o' ops]]; simpl; auto.
  intros D. apply inv_string in D. exists o. split; [assumption|now left].
Qed.

Lemma binary_expression_shape ops operand body ts :
  rule_of g operand = Some body -> hidden operand = false ->
  derives g (binary_expression (operator_rule ops) (SYMBOL operand)) ts ->
  chain g operand ops ts.
Proof.
  intros Hr Hh D. unfold binary_expression, seq, repeat in D.
  apply inv_seq_cons in D as (a & b & -> & Da & D).
  apply inv_seq_cons in D as (c & d & -> & Dc & D).
  apply inv_seq_nil in D as ->. rewrite app_nil_r.
  destruct (inv_named _ _ _ Hr Hh Da) as (cs & -> & _).
  revert Da. generalize (Node operand cs) as t. revert c Dc.
  apply (repeat_rounds
           (fun c => forall t, derives g (SYMBOL operand) [t] ->
                               chain g operand ops ([t] ++ c))).
  - intros t Dt. now constructor.
  - intros x y Dx _ IH t Dt.
    apply inv_seq_cons in Dx as (o & x' & -> & Do & Dx).
    apply inv_seq_cons in Dx as (n & e & -> & Dn & Dx).
    apply inv_seq_nil in Dx as ->. rewrite app_nil_r.
    apply operator_shape in Do as (op & -> & Hop).
    destruct (inv_named _ _ _ Hr Hh Dn) as (cs' & -> & _).
    simpl. apply chain_more; [assumption|assumption|].
    now apply (IH (Node operand cs')).
Qed.

End Inversion.

(** ** Soundness of the two-terminal prefixes *)

Lemma firstn2_app (a b : list nat) :
  firstn 2 (a ++ b) = firstn 2 (firstn 2 a ++ firstn 2 b).
Proof.
  destruct a as [|x [|y a]]; simpl.
  - destruct b as [|u [|v b]]; reflexivity.
  - destruct b as [|u b]; reflexivity.
  - reflexivity.
Qed.

Lemma firstn2_idem (a : list nat) : firstn 2 (firstn 2 a) = firstn 2 a.
Proof. destruct a as [|x [|y a]]; reflexivity. Qed.

Lemma In_norm x S : In x (norm S) <-> In x S.
Proof. apply nodup_In. Qed.

Lemma pmem_In x S : pmem x S = true -> In x S.
Proof. unfold pmem. destruct (in_dec peq x S); [auto|discriminate]. Qed.

Lemma In_cat2 a b A B :
  In a A -> In b B -> In (firstn 2 (a ++ b)) (cat2 A B).
Proof.
  intros Ha Hb. apply In_norm, in_flat_map. exists a. split; [assumption|].
  apply in_map_iff. now exists b.
Qed.

Lemma In_star2 x S :
  In x (star2 S) <-> x = [] \/ In x S \/ In x (cat2 S S).
Proof.
  unfold star2. rewrite In_norm. simpl. rewrite in_app_iff.
  split; [intros [<-|H]; auto|intros [->|H]; auto].
Qed.

Lemma star2_closed S p1 p2 :
  firstn 2 p1 = p1 -> In p1 S -> In p2 (star2 S) ->
  In (firstn 2 (p1 ++ p2)) (star2 S).
Proof.
  intros Hid H1 H2. apply In_star2. apply In_star2 in H2 as [->|[H2|H2]].
  - rewrite app_nil_r, Hid. auto.
  - right. right. now apply In_cat2.
  - right. right. apply In_norm, in_flat_map in H2 as (b & Hb & H2).
    apply in_map_iff in H2 as (c & <- & Hc).
    rewrite firstn2_app, firstn2_idem, <- firstn2_app.
    destruct p1 as [|x [|y p1]].
    + rewrite app_nil_l. now apply In_cat2.
    + destruct b as [|z b].
      * rewrite app_nil_l. now apply In_cat2.
      * change (firstn 2 ([x] ++ (z :: b) ++ c))
          with (firstn 2 ([x] ++ z :: b)). now apply In_cat2.
    + change (firstn 2 ((x :: y :: p1) ++ b ++ c))
        with (firstn 2 ((x :: y :: p1) ++ b)). now apply In_cat2.
Qed.

Section First2Sound.
Variable g : grammar.
Variable cls : terminal -> nat.
Variable tab : list (string * list (list nat)).
Hypothesis tab_stable : stable g cls tab = true.

Lemma pre2_app (a b : list token) :
  pre2 cls (a ++ b) = firstn 2 (pre2 cls a ++ pre2 cls b).
Proof. unfold pre2. rewrite map_app. apply firstn2_app. Qed.

Lemma pre2_idem (a : list token) : firstn 2 (pre2 cls a) = pre2 cls a.
Proof. apply firstn2_idem. Qed.

Lemma stable_body n r x :
  rule_of g n = Some r ->
  In x (first2 g cls (env_of tab) r) -> In x (env_of tab n).
Proof.
  intros Hr Hx. unfold stable in tab_stable.
  rewrite forallb_forall in tab_stable.
  specialize (tab_stable _ (js_get_In _ _ _ Hr)). simpl in tab_stable.
  rewrite forallb_forall in tab_stable. apply pmem_In. auto.
Qed.

(** The first two terminals of whatever [r] derives are among the
    prefixes computed for [r]. *)
Lemma first2_sound r ts :
  derives g r ts ->
  In (pre2 cls (yields ts)) (first2 g cls (env_of tab) r).
Proof.
  induction 1 as [ | s | p text Hm | n r ts Hr Hh D IH | n r ts Hr Hh D IH
                 | n Hr He | | r rs ts1 ts2 D1 IH1 D2 IH2 | r rs ts Hin D IH
                 | r | r ts1 ts2 D1 IH1 D2 IH2 | r ts1 ts2 D1 IH1 D2 IH2 ].
  - now left.
  - now left.
  - now left.
  - simpl first2. rewrite Hr. unfold yields. simpl. rewrite app_nil_r.
    eapply stable_body; eauto.
  - simpl first2. rewrite Hr. eapply stable_body; eauto.
  - simpl first2. rewrite Hr, He. now left.
  - now left.
  - rewrite yields_app, pre2_app.
    change (first2 g cls (env_of tab) (SEQ (r :: rs)))
      with (cat2 (first2 g cls (env_of tab) r) (first2 g cls (env_of tab) (SEQ rs))).
    now apply In_cat2.
  - simpl first2. apply In_norm. clear D. induction rs as [|q rs IHrs];
      [contradiction|].
    apply in_or_app. destruct Hin as [->|Hin]; [now left|right; auto].
  - apply In_star2. now left.
  - rewrite yields_app, pre2_app. simpl first2.
    apply star2_closed; auto using pre2_idem.
  - rewrite yields_app, pre2_app. simpl first2. now apply In_cat2.
Qed.

End First2Sound.

(** ** Building derivations *)

Lemma derives_seq2 g r1 r2 a b :
  derives g r1 a -> derives g r2 b -> derives g (SEQ [r1; r2]) (a ++ b).
Proof.
  intros D1 D2. constructor; [assumption|].
  rewrite <- (app_nil_r b). constructor; [assumption|constructor].
Qed.

Lemma derives_seq3 g r1 r2 r3 a b c :
  derives g r1 a -> derives g r2 b -> derives g r3 c ->
  derives g (SEQ [r1; r2; r3]) (a ++ b ++ c).
Proof.
  intros D1 D2 D3. constructor; [assumption|]. now apply derives_seq2.
Qed.

Lemma derives_optional_none g r : derives g (optional r) [].
Proof. apply D_choice with (r := BLANK); [right; now left|constructor]. Qed.

Lemma derives_optional_some g r ts : derives g r ts -> derives g (optional r) ts.
Proof. intros D. apply D_choice with (r := r); [now left|assumption]. Qed.


Lemma yield_rename f t : yield (rename_tree f t) = map f (yield t).
Proof.
  revert t. fix IH 1. intros [k|k cs]; [reflexivity|]. simpl.
  induction cs as [|c cs IHcs]; [reflexivity|].
  simpl. rewrite map_app, IH, IHcs. reflexivity.
Qed.


(** ** Reading tokens off a text *)




Lemma all_extra_app g a b :
  all_extra g a = true -> all_extra g b = true ->
  all_extra g (String.append a b) = true.
Proof.
  induction a as [|c a IH]; simpl; intros Ha Hb; [assumption|].
  apply andb_prop in Ha as [Hc Ha]. rewrite Hc. simpl. auto.
Qed.

Lemma append_assoc (a b c : string) :
  String.append (String.append a b) c = String.append a (String.append b c).
Proof. induction a as [|x a IH]; simpl; [reflexivity|now f_equal]. Qed.

(** More extras in front of a text lay out the same tokens. *)
Lemma layout_indent g ws toks text :
  all_extra g ws = true -> layout g toks text ->
  layout g toks (String.append ws text).
Proof.
  intros Hws L. destruct L as [ws' H|ws' t toks rest H L].
  - constructor. now apply all_extra_app.
  - rewrite <- append_assoc. constructor; [now apply all_extra_app|assumption].
Qed.

(** * The shape of the nodes *)

(** ** Tactics *)

Ltac by_matcher := apply accepts_sound with (fuel := 200); vm_compute; reflexivity.

(** Inverts a derivation from a reference to the defined, visible rule [n]. *)
Ltac inv_rule H n cs :=
  let b := eval vm_compute in (rule_of cspaced n) in
  match b with
  | Some ?body =>
      let Hr := fresh "Hr" in
      assert (Hr : rule_of cspaced n = Some body) by (vm_compute; reflexivity);
      apply (inv_named cspaced n body _ Hr eq_refl) in H as (cs & ? & H);
      clear Hr
  end.

(** ** The two forms of a block body *)

Lemma block_item_list ts :
  derives cspaced (REPEAT block_item) ts -> Forall is_item ts.
Proof.
  revert ts. apply repeat_rounds; [constructor|].
  intros a b Da _ IH.
  apply inv_choice in Da as (q & [<-|[<-|[]]] & Da).
  - inv_rule Da "statement" x. subst a. constructor; [|assumption].
    exists x. now left.
  - inv_rule Da "declaration" x. subst a. constructor; [|assumption].
    exists x. now right.
Qed.

(** What [compound_statement] derives is a block in the indentation form:
    [':'], BLOCK-START, items, BLOCK-END. *)
Lemma compound_shape ts :
  derives cspaced $"compound_statement" ts -> exists b, ts = [b] /\ is_block b.
Proof.
  intros D. inv_rule D "compound_statement" cs. subst ts.
  apply inv_seq_cons in D as (a1 & b1 & -> & D1 & D).
  apply inv_seq_cons in D as (a2 & b2 & -> & D2 & D).
  apply inv_seq_cons in D as (a3 & b3 & -> & D3 & D).
  apply inv_seq_cons in D as (a4 & b4 & -> & D4 & D).
  apply inv_seq_nil in D as ->. apply inv_string in D1 as ->.
  apply inv_undefined in D2 as [-> _]; [|reflexivity].
  apply inv_undefined in D4 as [-> _]; [|reflexivity].
  apply block_item_list in D3.
  eexists. split; [reflexivity|]. exists a3. split; [|assumption].
  reflexivity.
Qed.

(** The body of an [if] is a block, and so is the body of its [else]. *)
Lemma if_shape cs :
  derives cspaced $"selection_statement"
    [Node "selection_statement" (Leaf (TStr "if") :: cs)] ->
  exists c b rest,
    cs = Node "parenthesized_expression" c :: b :: rest /\ is_block b /\
    (rest = [] \/ exists b', rest = [Leaf (TStr "else"); b'] /\ is_block b').
Proof.
  intros D. inv_rule D "selection_statement" cs'. injection H as <-.
  apply inv_choice in D as (r & [<-|[<-|[]]] & D).
  - apply inv_seq_cons in D as (a1 & b1 & E1 & D1 & D).
    apply inv_seq_cons in D as (a2 & b2 & -> & D2 & D).
    apply inv_seq_cons in D as (a3 & b3 & -> & D3 & D).
    apply inv_seq_cons in D as (a4 & b4 & -> & D4 & D).
    apply inv_seq_nil in D as ->. apply inv_string in D1 as ->.
    inv_rule D2 "parenthesized_expression" c. subst a2.
    apply compound_shape in D3 as (b & -> & Hb).
    injection E1 as ->. exists c, b, (a4 ++ []).
    split; [reflexivity|]. split; [assumption|]. rewrite app_nil_r.
    apply inv_optional in D4 as [->|D4]; [now left|right].
    apply inv_seq_cons in D4 as (x1 & y1 & -> & X1 & D4).
    apply inv_seq_cons in D4 as (x2 & y2 & -> & X2 & D4).
    apply inv_seq_nil in D4 as ->. apply inv_string in X1 as ->.
    apply compound_shape in X2 as (b' & -> & Hb').
    exists b'. split; [reflexivity|assumption].
  - apply inv_seq_cons in D as (a & b & E & Da & _).
    apply inv_string in Da. subst a. discriminate E.
Qed.

(** The body of a [while], of a [do] and of a [for] is a block; a [do]
    statement ends with [';']. *)
Lemma iteration_shape ts :
  derives cspaced $"iteration_statement" ts ->
  exists cs, ts = [Node "iteration_statement" cs] /\
    ((exists c b,
        cs = [Leaf (TStr "while"); Node "parenthesized_expression" c; b] /\
        is_block b) \/
     (exists b c,
        cs = [Leaf (TStr "do"); b; Leaf (TStr "while");
              Node "parenthesized_expression" c; Leaf (TStr ";")] /\
        is_block b) \/
     (exists head b,
        cs = Leaf (TStr "for") :: Leaf (TStr "(") :: head
             ++ [Leaf (TStr ")"); b] /\
        is_block b)).
Proof.
  intros D. inv_rule D "iteration_statement" cs. exists cs.
  split; [assumption|].
  apply inv_choice in D as (r & [<-|[<-|[<-|[]]]] & D).
  - apply inv_seq_cons in D as (a1 & b1 & -> & D1 & D).
    apply inv_seq_cons in D as (a2 & b2 & -> & D2 & D).
    apply inv_seq_cons in D as (a3 & b3 & -> & D3 & D).
    apply inv_seq_nil in D as ->. apply inv_string in D1 as ->.
    inv_rule D2 "parenthesized_expression" c. subst a2.
    apply compound_shape in D3 as (b & -> & Hb).
    left. exists c, b. split; [reflexivity|assumption].
  - apply inv_seq_cons in D as (a1 & b1 & -> & D1 & D).
    apply inv_seq_cons in D as (a2 & b2 & -> & D2 & D).
    apply inv_seq_cons in D as (a3 & b3 & -> & D3 & D).
    apply inv_seq_cons in D as (a4 & b4 & -> & D4 & D).
    apply inv_seq_cons in D as (a5 & b5 & -> & D5 & D).
    apply inv_seq_nil in D as ->.
    apply inv_string in D1 as ->. apply inv_string in D3 as ->.
    apply inv_string in D5 as ->.
    inv_rule D4 "parenthesized_expression" c. subst a4.
    apply compound_shape in D2 as (b & -> & Hb).
    right. left. exists b, c. split; [reflexivity|assumption].
  - apply inv_seq_cons in D as (a1 & b1 & -> & D1 & D).
    apply inv_seq_cons in D as (a2 & b2 & -> & D2 & D).
    apply inv_seq_cons in D as (a3 & b3 & -> & D3 & D).
    apply inv_seq_cons in D as (a4 & b4 & -> & D4 & D).
    apply inv_seq_cons in D as (a5 & b5 & -> & D5 & D).
    apply inv_seq_cons in D as (a6 & b6 & -> & D6 & D).
    apply inv_seq_cons in D as (a7 & b7 & -> & D7 & D).
    apply inv_seq_cons in D as (a8 & b8 & -> & D8 & D).
    apply inv_seq_cons in D as (a9 & b9 & -> & D9 & D).
    apply inv_seq_nil in D as ->.
    apply inv_string in D1 as ->. apply inv_string in D2 as ->.
    apply inv_string in D8 as ->.
    apply compound_shape in D9 as (b & -> & Hb).
    right. right. exists (a3 ++ a4 ++ a5 ++ a6 ++ a7), b.
    split; [|assumption]. simpl. do 2 f_equal.
    repeat rewrite <- app_assoc. reflexivity.
Qed.

Lemma labeled_items ts :
  derives cspaced (REPEAT $"labeled_statement") ts ->
  Forall (fun i => exists x, i = Node "labeled_statement" x) ts.
Proof.
  revert ts. apply repeat_rounds; [constructor|].
  intros a b Da _ IH. inv_rule Da "labeled_statement" x. subst a.
  constructor; eauto.
Qed.

(** Every [switch] statement has the brace form: a parenthesized
    expression, ['{'], labeled statements, ['}']. *)
Lemma switch_shape cs :
  derives cspaced $"selection_statement"
    [Node "selection_statement" (Leaf (TStr "switch") :: cs)] ->
  exists c items,
    cs = Node "parenthesized_expression" c :: Leaf (TStr "{")
         :: items ++ [Leaf (TStr "}")] /\
    Forall (fun i => exists x, i = Node "labeled_statement" x) items.
Proof.
  intros D. inv_rule D "selection_statement" cs'.
  injection H as <-.
  apply inv_choice in D as (r & [<-|[<-|[]]] & D).
  - apply inv_seq_cons in D as (a & b & E & Da & _).
    apply inv_string in Da. subst a. discriminate E.
  - apply inv_seq_cons in D as (a1 & b1 & E1 & D1 & D).
    apply inv_seq_cons in D as (a2 & b2 & E2 & D2 & D).
    apply inv_seq_cons in D as (a3 & b3 & E3 & D3 & D).
    apply inv_seq_cons in D as (a4 & b4 & E4 & D4 & D).
    apply inv_seq_cons in D as (a5 & b5 & E5 & D5 & D).
    apply inv_seq_nil in D. apply inv_string in D1, D3, D5.
    inv_rule D2 "parenthesized_expression" c.
    apply labeled_items in D4. subst.
    injection E1 as ->. exists c, a4. split; [reflexivity|assumption].
Qed.

(** ** The end of a statement *)

Lemma derives_named n body cs :
  rule_of cspaced n = Some body -> hidden n = false ->
  derives cspaced body cs -> derives cspaced (SYMBOL n) [Node n cs].
Proof. intros. eapply D_named; eauto. Qed.

(** A rule [seq(head, optional(';'))] derives what [head] derives, with or
    without a closing [';'], and nothing else. *)
Lemma optional_semicolon head cs :
  derives cspaced (seq [head; optional (STRING ";")]) cs <->
  exists hs, derives cspaced head hs /\ (cs = hs \/ cs = hs ++ semicolon).
Proof.
  split.
  - intros D. apply inv_seq_cons in D as (a & b & -> & Da & D).
    apply inv_seq_cons in D as (c & d & -> & Dc & D).
    apply inv_seq_nil in D as ->. rewrite app_nil_r.
    exists a. split; [assumption|].
    apply inv_optional in Dc as [->|Dc].
    + left. now rewrite app_nil_r.
    + apply inv_string in Dc as ->. now right.
  - intros (hs & D & [->| ->]).
    + rewrite <- (app_nil_r hs). apply derives_seq2;
        [assumption|apply derives_optional_none].
    + apply derives_seq2; [assumption|].
      apply derives_optional_some. constructor.
Qed.

Lemma declaration_regroup cs :
  derives cspaced
    (seq [$"declaration_specifiers"; optional $"_init_declarator_list";
          optional (STRING ";")]) cs <->
  derives cspaced (seq [declaration_head; optional (STRING ";")]) cs.
Proof.
  split; intros D.
  - apply inv_seq_cons in D as (a & b & -> & Da & D).
    apply inv_seq_cons in D as (c & d & -> & Dc & D).
    apply inv_seq_cons in D as (e & f & -> & De & D).
    apply inv_seq_nil in D as ->. rewrite app_nil_r, app_assoc.
    apply derives_seq2; [|exact De]. now apply derives_seq2.
  - apply inv_seq_cons in D as (a & b & -> & Da & D).
    apply inv_seq_cons in Da as (c & d & -> & Dc & Da).
    apply inv_seq_cons in Da as (e & f & -> & De & Da).
    apply inv_seq_nil in Da as ->. rewrite app_nil_r, <- app_assoc.
    constructor; [assumption|]. constructor; assumption.
Qed.

(** ** The levels of an expression *)

Lemma ladder_shape lvl ops operand ts :
  In (lvl, (ops, operand)) ladder ->
  derives cspaced (SYMBOL lvl) ts ->
  exists cs, ts = [Node lvl cs] /\ chain cspaced operand ops cs.
Proof.
  intros Hin D.
  repeat (destruct Hin as [[= <- <- <-]|Hin];
    [ match type of D with
      | derives _ (SYMBOL ?n) _ => inv_rule D n cs
      end;
      exists cs; split; [assumption|];
      eapply (binary_expression_shape cspaced);
        [vm_compute; reflexivity|reflexivity|exact D]
    | ]).
  destruct Hin.
Qed.

Lemma assignment_shape ts :
  derives cspaced $"assignment_expression" ts ->
  exists cs, ts = [Node "assignment_expression" cs] /\
    ((exists c, cs = [Node "conditional_expression" c]) \/
     (exists u o r, cs = [Node "unary_expression" u;
                          Node "assignment_operator" o;
                          Node "assignment_expression" r])).
Proof.
  intros D. inv_rule D "assignment_expression" cs. exists cs.
  split; [assumption|].
  apply inv_choice in D as (q & [<-|[<-|[]]] & D).
  - inv_rule D "conditional_expression" c. left. eauto.
  - apply inv_seq_cons in D as (a1 & b1 & -> & D1 & D).
    apply inv_seq_cons in D as (a2 & b2 & -> & D2 & D).
    apply inv_seq_cons in D as (a3 & b3 & -> & D3 & D).
    apply inv_seq_nil in D as ->.
    inv_rule D1 "unary_expression" u. inv_rule D2 "assignment_operator" o.
    inv_rule D3 "assignment_expression" r. subst.
    right. do 3 eexists. reflexivity.
Qed.

Lemma conditional_shape ts :
  derives cspaced $"conditional_expression" ts ->
  exists l rest,
    ts = [Node "conditional_expression" (Node "logical_or_expression" l :: rest)].
Proof.
  intros D. inv_rule D "conditional_expression" cs. subst ts.
  apply inv_seq_cons in D as (a1 & b1 & -> & D1 & D).
  inv_rule D1 "logical_or_expression" l. subst. do 2 eexists. reflexivity.
Qed.

Lemma cast_shape ts :
  derives cspaced $"cast_expression" ts ->
  exists cs, ts = [Node "cast_expression" cs] /\
    ((exists u, cs = [Node "unary_expression" u]) \/
     (exists tn c, cs = [Leaf (TStr "("); Node "type_name" tn; Leaf (TStr ")");
                         Node "cast_expression" c])).
Proof.
  intros D. inv_rule D "cast_expression" cs. exists cs. split; [assumption|].
  apply inv_choice in D as (q & [<-|[<-|[]]] & D).
  - apply inv_seq_cons in D as (a1 & b1 & -> & D1 & D).
    apply inv_seq_cons in D as (a2 & b2 & -> & D2 & D).
    apply inv_seq_cons in D as (a3 & b3 & -> & D3 & D).
    apply inv_seq_cons in D as (a4 & b4 & -> & D4 & D).
    apply inv_seq_nil in D as ->. apply inv_string in D1, D3.
    inv_rule D2 "type_name" tn. inv_rule D4 "cast_expression" c.
    subst. right. do 2 eexists. reflexivity.
  - inv_rule D "unary_expression" u. left. eauto.
Qed.

Lemma unary_shape ts :
  derives cspaced $"unary_expression" ts ->
  exists cs, ts = [Node "unary_expression" cs] /\
    ((exists p, cs = [Node "postfix_expression" p]) \/
     (exists o u, cs = [Leaf (TStr o); Node "unary_expression" u] /\
                  In o ["++"; "--"]) \/
     (exists o c, cs = [Node "unary_operator" o; Node "cast_expression" c]) \/
     (exists u, cs = [Leaf (TStr "sizeof"); Node "unary_expression" u]) \/
     (exists tn, cs = [Leaf (TStr "sizeof"); Leaf (TStr "(");
                       Node "type_name" tn; Leaf (TStr ")")]) \/
     (exists tn, cs = [Leaf (TStr "_Alignof"); Leaf (TStr "(");
                       Node "type_name" tn; Leaf (TStr ")")])).
Proof.
  intros D. inv_rule D "unary_expression" cs. exists cs. split; [assumption|].
  apply inv_choice in D as (q & [<-|[<-|[<-|[<-|[<-|[]]]]]] & D).
  - inv_rule D "postfix_expression" p. left. eauto.
  - apply inv_seq_cons in D as (a1 & b1 & -> & D1 & D).
    apply inv_seq_cons in D as (a2 & b2 & -> & D2 & D).
    apply inv_seq_nil in D as ->.
    apply (operator_shape cspaced ["++"; "--"]) in D1 as (o & -> & Ho).
    inv_rule D2 "unary_expression" u. subst a2.
    right. left. exists o, u. split; [reflexivity|assumption].
  - apply inv_seq_cons in D as (a1 & b1 & -> & D1 & D).
    apply inv_seq_cons in D as (a2 & b2 & -> & D2 & D).
    apply inv_seq_nil in D as ->.
    inv_rule D1 "unary_operator" o. inv_rule D2 "cast_expression" c. subst.
    right. right. left. do 2 eexists. reflexivity.
  - apply inv_seq_cons in D as (a1 & b1 & -> & D1 & D).
    apply inv_seq_cons in D as (a2 & b2 & -> & D2 & D).
    apply inv_seq_nil in D as ->. apply inv_string in D1 as ->.
    apply inv_choice in D2 as (q & [<-|[<-|[]]] & D2).
    + inv_rule D2 "unary_expression" u. subst a2.
      right. right. right. left. eexists. reflexivity.
    + apply inv_seq_cons in D2 as (x1 & y1 & -> & X1 & D2).
      apply inv_seq_cons in D2 as (x2 & y2 & -> & X2 & D2).
      apply inv_seq_cons in D2 as (x3 & y3 & -> & X3 & D2).
      apply inv_seq_nil in D2 as ->.
      apply inv_string in X1 as ->. apply inv_string in X3 as ->.
      inv_rule X2 "type_name" tn. subst x2.
      right. right. right. right. left. eexists. reflexivity.
  - apply inv_seq_cons in D as (a1 & b1 & -> & D1 & D).
    apply inv_seq_cons in D as (a2 & b2 & -> & D2 & D).
    apply inv_seq_nil in D as ->. apply inv_string in D1 as ->.
    apply inv_seq_cons in D2 as (x1 & y1 & -> & X1 & D2).
    apply inv_seq_cons in D2 as (x2 & y2 & -> & X2 & D2).
    apply inv_seq_cons in D2 as (x3 & y3 & -> & X3 & D2).
    apply inv_seq_nil in D2 as ->.
    apply inv_string in X1 as ->. apply inv_string in X3 as ->.
    inv_rule X2 "type_name" tn. subst x2.
    right. right. right. right. right. eexists. reflexivity.
Qed.

(** * What the rules reach *)

(** ** Names *)

Lemma defined_in_all_names n body :
  rule_of cspaced n = Some body -> In n all_names.
Proof.
  intros H. apply js_get_In in H.
  assert (A : forallb (fun nr => mem (fst nr) all_names) (rules cspaced) = true)
    by (vm_compute; reflexivity).
  rewrite forallb_forall in A. apply mem_In. exact (A _ H).
Qed.

(** No rule of the grammar takes the scanner's [_newline] token. *)
Lemma no_newline n body ts :
  rule_of cspaced n = Some body -> derives cspaced (SYMBOL n) ts ->
  ~ In (TExt "_newline") (yields ts).
Proof.
  intros Hr D Hin.
  assert (C : closedb cspaced all_names = true) by (vm_compute; reflexivity).
  destruct (derives_closed cspaced all_names C _ _ D) as [_ B].
  { intros x [<-|[]]. eapply defined_in_all_names; eauto. }
  apply In_ext_names, B, mem_In in Hin. vm_compute in Hin. discriminate Hin.
Qed.

(** Nothing derived from the start rule holds an indentation block. *)
Lemma unit_has_no_block ts :
  derives cspaced $"translation_unit" ts ->
  ~ In (TExt "_indent") (yields ts) /\
  ~ In "compound_statement" (flat_map kinds ts) /\
  ~ In "statement" (flat_map kinds ts).
Proof.
  intros D.
  assert (C : closedb cspaced unit_names = true) by (vm_compute; reflexivity).
  destruct (derives_closed cspaced unit_names C _ _ D) as [A B].
  { intros x [<-|[]]. apply mem_In. vm_compute. reflexivity. }
  repeat split; intros Hin.
  - apply In_ext_names, B, mem_In in Hin. vm_compute in Hin. discriminate Hin.
  - apply A, mem_In in Hin. vm_compute in Hin. discriminate Hin.
  - apply A, mem_In in Hin. vm_compute in Hin. discriminate Hin.
Qed.

Lemma undefined_derives_nothing k ts :
  rule_of cspaced k = None -> is_external cspaced k = false ->
  ~ derives cspaced (SYMBOL k) ts.
Proof.
  intros Hr He D. apply inv_undefined in D as [_ E]; congruence.
Qed.

(** ** First terminals *)

Lemma id_table_stable : stable cspaced id_cls id_table = true.
Proof. vm_compute. reflexivity. Qed.

Lemma minus_table_stable : stable cspaced minus_cls minus_table = true.
Proof. vm_compute. reflexivity. Qed.


Lemma prefix_cases (l r : list token) x y tl :
  l ++ r = x :: y :: tl ->
  l = [] \/ (l = [x] /\ r = y :: tl) \/ exists l', l = x :: y :: l'.
Proof.
  destruct l as [|a [|b l]]; simpl; intros E.
  - now left.
  - injection E as -> ->. right. left. auto.
  - injection E as -> -> _. right. right. eauto.
Qed.

(** A multiplicative expression that starts with an identifier does not
    go on with ['-']. *)
Lemma operand_stops_at_minus t r x tl :
  derives cspaced $"multiplicative_expression" [t] ->
  yield t ++ r = id_token x :: TStr "-" :: tl ->
  yield t = [id_token x] /\ r = TStr "-" :: tl.
Proof.
  intros D E.
  pose proof (first2_sound cspaced minus_cls minus_table minus_table_stable
                _ _ D) as P.
  unfold yields in P. simpl flat_map in P. rewrite app_nil_r in P.
  apply prefix_cases in E as [E|[E|(l' & E)]]; [| exact E |];
    rewrite E in P; vm_compute in P;
    repeat (destruct P as [P|P]; [discriminate P|]); destruct P.
Qed.

Lemma operand_is_not_empty t :
  derives cspaced $"multiplicative_expression" [t] -> yield t <> [].
Proof.
  intros D E.
  pose proof (first2_sound cspaced minus_cls minus_table minus_table_stable
                _ _ D) as P.
  unfold yields in P. simpl flat_map in P. rewrite app_nil_r, E in P.
  vm_compute in P. repeat (destruct P as [P|P]; [discriminate P|]). destruct P.
Qed.

Lemma chain_step ops x tl cs :
  chain cspaced "multiplicative_expression" ops cs ->
  yields cs = id_token x :: TStr "-" :: tl ->
  exists t rest,
    cs = t :: Leaf (TStr "-") :: rest /\ yield t = [id_token x] /\
    chain cspaced "multiplicative_expression" ops rest /\ yields rest = tl.
Proof.
  intros C E. destruct C as [t D|t o rest D Ho C]; unfold yields in E;
    simpl in E; apply (operand_stops_at_minus _ _ _ _ D) in E as [Et Er].
  - discriminate Er.
  - injection Er as -> Er. exists t, rest. auto.
Qed.

Lemma chain_last ops x cs :
  chain cspaced "multiplicative_expression" ops cs ->
  yields cs = [id_token x] ->
  exists t, cs = [t] /\ yield t = [id_token x].
Proof.
  intros C E. destruct C as [t D|t o rest D Ho C]; unfold yields in E;
    simpl in E.
  - rewrite app_nil_r in E. eauto.
  - pose proof (operand_is_not_empty t D) as N.
    destruct (yield t) as [|a [|b l]]; [congruence|discriminate E|discriminate E].
Qed.

(** Every derivation of [a - b - c] as an additive expression is one node
    with the three operands [a], [b] and [c]. *)
Lemma minus_chain_is_flat cs :
  derives cspaced $"additive_expression" [Node "additive_expression" cs] ->
  yields cs = minus_tokens ->
  exists m1 m2 m3,
    cs = [m1; Leaf (TStr "-"); m2; Leaf (TStr "-"); m3] /\
    yield m1 = [id_token "a"] /\ yield m2 = [id_token "b"] /\
    yield m3 = [id_token "c"].
Proof.
  intros D E.
  destruct (ladder_shape "additive_expression" ["+"; "-"]
              "multiplicative_expression" _ (ltac:(do 9 right; now left)) D)
    as (cs' & [= <-] & C).
  apply (chain_step _ _ _ _ C) in E as (m1 & r1 & -> & E1 & C1 & E).
  apply (chain_step _ _ _ _ C1) in E as (m2 & r2 & -> & E2 & C2 & E).
  apply (chain_last _ _ _ C2) in E as (m3 & -> & E3).
  exists m1, m2, m3. auto.
Qed.




(** ** Whitespace *)

Lemma is_extra_whitespace c :
  is_extra cspaced c = existsb (Ascii.eqb c) whitespace.
Proof.
  destruct c as [[] [] [] [] [] [] [] []]; vm_compute; reflexivity.
Qed.

Lemma is_extra_iff c : is_extra cspaced c = true <-> In c whitespace.
Proof.
  rewrite is_extra_whitespace, existsb_exists. split.
  - intros (x & Hx & E). apply Ascii.eqb_eq in E. now subst.
  - intros H. exists c. split; [assumption|apply Ascii.eqb_refl].
Qed.

Lemma literals_without_whitespace n body s :
  rule_of cspaced n = Some body -> In s (strings body) ->
  has_whitespace s = false.
Proof.
  intros Hr Hs. apply js_get_In in Hr.
  assert (A : forallb (fun nr => forallb (fun s => negb (has_whitespace s))
                                         (strings (snd nr)))
                      (rules cspaced) = true) by (vm_compute; reflexivity).
  rewrite forallb_forall in A. specialize (A _ Hr). simpl in A.
  rewrite forallb_forall in A. apply negb_true_iff. auto.
Qed.

(** * The claims *)

(** ** Block bodies (C1) *)

(** C1.  A block body in the indentation form is [':'], BLOCK-START,
    statements and declarations, BLOCK-END; it is the body of [if] (and of
    its [else]), [while], [do] and [for], and a [switch] has the brace form.
    At a function definition the claim has no rule behind it:
    [external_declaration] refers to [function_definition], which no rule
    defines, so nothing is derived as a function definition.  For
    [int main(void):] followed by the deeper line [return 0], the header
    alone is a declaration and the body alone is an indentation block, but
    the start rule derives no sequence of trees with these tokens. *)
Theorem function_body_is_not_derived :
  ((forall ts, derives cspaced $"compound_statement" ts ->
      exists b, ts = [b] /\ is_block b) /\
   (forall cs,
      derives cspaced $"selection_statement"
        [Node "selection_statement" (Leaf (TStr "if") :: cs)] ->
      exists c b rest,
        cs = Node "parenthesized_expression" c :: b :: rest /\ is_block b /\
        (rest = [] \/ exists b', rest = [Leaf (TStr "else"); b'] /\ is_block b')) /\
   (forall ts, derives cspaced $"iteration_statement" ts ->
      exists cs, ts = [Node "iteration_statement" cs] /\
        ((exists c b,
            cs = [Leaf (TStr "while"); Node "parenthesized_expression" c; b] /\
            is_block b) \/
         (exists b c,
            cs = [Leaf (TStr "do"); b; Leaf (TStr "while");
                  Node "parenthesized_expression" c; Leaf (TStr ";")] /\
            is_block b) \/
         (exists head b,
            cs = Leaf (TStr "for") :: Leaf (TStr "(") :: head
                 ++ [Leaf (TStr ")"); b] /\
            is_block b))) /\
   (forall cs,
      derives cspaced $"selection_statement"
        [Node "selection_statement" (Leaf (TStr "switch") :: cs)] ->
      exists c items,
        cs = Node "parenthesized_expression" c :: Leaf (TStr "{")
             :: items ++ [Leaf (TStr "}")] /\
        Forall (fun i => exists x, i = Node "labeled_statement" x) items)) /\
  lays cspaced main_tokens main_text = true /\
  refers cspaced "external_declaration" "function_definition" = true /\
  rule_of cspaced "function_definition" = None /\
  (forall ts, ~ derives cspaced $"function_definition" ts) /\
  derives cspaced $"declaration" [main_header] /\
  yield main_header = main_header_tokens /\
  derives cspaced $"compound_statement" [main_body] /\
  yield main_body = main_body_tokens /\
  (forall ts, derives cspaced $"translation_unit" ts -> yields ts <> main_tokens).
Proof.
  split.
  { split; [exact compound_shape|]. split; [exact if_shape|].
    split; [exact iteration_shape|exact switch_shape]. }
  split; [reflexivity|]. split; [reflexivity|]. split; [reflexivity|].
  split; [intros ts; now apply undefined_derives_nothing|].
  split; [by_matcher|]. split; [reflexivity|].
  split; [by_matcher|]. split; [reflexivity|].
  intros ts D E. destruct (unit_has_no_block ts D) as [N _]. apply N.
  rewrite E. vm_compute. tauto.
Qed.

(** ** Statement terminators (C2) *)

(** C2, as the grammar has it.  An expression statement, a declaration and
    a jump statement end with [';'] or with no token at all, and with
    nothing else; no rule takes the scanner's [_newline] token, so a
    STATEMENT-END signal is never part of what the grammar derives. *)
Theorem terminator_is_optional (es ds js : list tree) :
  derives cspaced $"expression" es ->
  derives cspaced declaration_head ds ->
  derives cspaced jump_head js ->
  (derives cspaced $"expression_statement" [Node "expression_statement" es] /\
   derives cspaced $"expression_statement"
     [Node "expression_statement" (es ++ semicolon)]) /\
  (derives cspaced $"declaration" [Node "declaration" ds] /\
   derives cspaced $"declaration" [Node "declaration" (ds ++ semicolon)]) /\
  (derives cspaced $"jump_statement" [Node "jump_statement" js] /\
   derives cspaced $"jump_statement" [Node "jump_statement" (js ++ semicolon)]) /\
  (forall cs,
     derives cspaced $"expression_statement" [Node "expression_statement" cs] ->
     exists hs, derives cspaced $"expression" hs /\
                (cs = hs \/ cs = hs ++ semicolon)) /\
  (forall cs,
     derives cspaced $"declaration" [Node "declaration" cs] ->
     exists hs, derives cspaced declaration_head hs /\
                (cs = hs \/ cs = hs ++ semicolon)) /\
  (forall cs,
     derives cspaced $"jump_statement" [Node "jump_statement" cs] ->
     exists hs, derives cspaced jump_head hs /\
                (cs = hs \/ cs = hs ++ semicolon)) /\
  (forall n body ts,
     rule_of cspaced n = Some body -> derives cspaced (SYMBOL n) ts ->
     ~ In (TExt "_newline") (yields ts)).
Proof.
  intros De Dd Dj.
  assert (Re : rule_of cspaced "expression_statement"
               = Some (seq [$"expression"; optional (STRING ";")]))
    by (vm_compute; reflexivity).
  assert (Rd : rule_of cspaced "declaration"
               = Some (seq [$"declaration_specifiers";
                            optional $"_init_declarator_list";
                            optional (STRING ";")]))
    by (vm_compute; reflexivity).
  assert (Rj : rule_of cspaced "jump_statement"
               = Some (seq [jump_head; optional (STRING ";")]))
    by (vm_compute; reflexivity).
  repeat split.
  - apply (derives_named _ _ _ Re eq_refl), optional_semicolon; eauto.
  - apply (derives_named _ _ _ Re eq_refl), optional_semicolon; eauto.
  - apply (derives_named _ _ _ Rd eq_refl), declaration_regroup,
      optional_semicolon; eauto.
  - apply (derives_named _ _ _ Rd eq_refl), declaration_regroup,
      optional_semicolon; eauto.
  - apply (derives_named _ _ _ Rj eq_refl), optional_semicolon; eauto.
  - apply (derives_named _ _ _ Rj eq_refl), optional_semicolon; eauto.
  - intros cs D. apply (inv_named _ _ _ _ Re eq_refl) in D as (cs' & [= <-] & D).
    now apply optional_semicolon.
  - intros cs D. apply (inv_named _ _ _ _ Rd eq_refl) in D as (cs' & [= <-] & D).
    now apply optional_semicolon, declaration_regroup.
  - intros cs D. apply (inv_named _ _ _ _ Rj eq_refl) in D as (cs' & [= <-] & D).
    now apply optional_semicolon.
  - exact no_newline.
Qed.

Lemma terminator_is_optional_witness :
  derives cspaced $"expression_statement"
    [Node "expression_statement"
       (as_level "expression" (ident "x") ++ semicolon)] /\
  derives cspaced $"declaration"
    [Node "declaration" [type_named "T"; Node "declarator" [ident "x"]]] /\
  derives cspaced $"jump_statement"
    [Node "jump_statement" ([lit "break"] ++ semicolon)].
Proof.
  assert (De : derives cspaced $"expression" (as_level "expression" (ident "x")))
    by by_matcher.
  assert (Dd : derives cspaced declaration_head
                 [type_named "T"; Node "declarator" [ident "x"]])
    by by_matcher.
  assert (Dj : derives cspaced jump_head [lit "break"]) by by_matcher.
  destruct (terminator_is_optional _ _ _ De Dd Dj)
    as ((_ & E) & (D & _) & (_ & J) & _).
  auto.
Defined.

(** C2, as it is stated, fails: an expression followed by the scanner's
    [_newline] token is neither a statement nor a declaration. *)
Lemma newline_is_rejected :
  ~ exists ts,
      (derives cspaced $"statement" ts \/ derives cspaced $"declaration" ts) /\
      yields ts = newline_tokens.
Proof.
  intros (ts & [D|D] & E);
    (eapply no_newline in D; [|vm_compute; reflexivity]);
    apply D; rewrite E; right; now left.
Qed.

(** ** Declarations and expression statements (C3) *)





(** ** Operator binding (C4) *)

(** C4, as the grammar has it.  Each level of the ladder derives one flat
    node: an operand of the next tighter level, then any number of pairs
    of an operator of the level and such an operand.  The ladder is linear
    from [logical_or_expression] down to [multiplicative_expression], in
    the order of the first [precedences] list, and its tightest operands
    are cast expressions: a cast, or a unary expression, where [sizeof]
    and the unary operators are.  An assignment
    has a unary expression on its left and an assignment on its right, or
    is a conditional expression, which starts with a
    [logical_or_expression]; [expression], the comma level, is the loosest.
    Every derivation of [a - b - c] is one node with the three operands
    [a], [b] and [c], and [a = b = c] nests to the right. *)
Theorem binding_ladder (lvl operand : string) (ops : list string) (ts : list tree) :
  In (lvl, (ops, operand)) ladder ->
  derives cspaced (SYMBOL lvl) ts ->
  (exists cs, ts = [Node lvl cs] /\ chain cspaced operand ops cs) /\
  (map fst ladder = "expression" :: binary_levels /\
   map (fun e => snd (snd e)) (tl ladder)
     = tl binary_levels ++ ["cast_expression"] /\
   hd [] (precedences cspaced) = map PName (map fst precedence_levels) /\
   map snd precedence_levels = rev binary_levels) /\
  (forall us, derives cspaced $"assignment_expression" us ->
     exists cs, us = [Node "assignment_expression" cs] /\
       ((exists c, cs = [Node "conditional_expression" c]) \/
        (exists u o r, cs = [Node "unary_expression" u;
                             Node "assignment_operator" o;
                             Node "assignment_expression" r]))) /\
  (forall us, derives cspaced $"conditional_expression" us ->
     exists l rest,
       us = [Node "conditional_expression"
               (Node "logical_or_expression" l :: rest)]) /\
  (forall us, derives cspaced $"cast_expression" us ->
     exists cs, us = [Node "cast_expression" cs] /\
       ((exists u, cs = [Node "unary_expression" u]) \/
        (exists tn c, cs = [Leaf (TStr "("); Node "type_name" tn;
                            Leaf (TStr ")"); Node "cast_expression" c]))) /\
  (forall us, derives cspaced $"unary_expression" us ->
     exists cs, us = [Node "unary_expression" cs] /\
       ((exists p, cs = [Node "postfix_expression" p]) \/
        (exists o u, cs = [Leaf (TStr o); Node "unary_expression" u] /\
                     In o ["++"; "--"]) \/
        (exists o c, cs = [Node "unary_operator" o; Node "cast_expression" c]) \/
        (exists u, cs = [Leaf (TStr "sizeof"); Node "unary_expression" u]) \/
        (exists tn, cs = [Leaf (TStr "sizeof"); Leaf (TStr "(");
                          Node "type_name" tn; Leaf (TStr ")")]) \/
        (exists tn, cs = [Leaf (TStr "_Alignof"); Leaf (TStr "(");
                          Node "type_name" tn; Leaf (TStr ")")]))) /\
  (derives cspaced $"additive_expression" [minus_flat] /\
   yield minus_flat = minus_tokens) /\
  (forall cs,
     derives cspaced $"additive_expression" [Node "additive_expression" cs] ->
     yields cs = minus_tokens ->
     exists m1 m2 m3,
       cs = [m1; Leaf (TStr "-"); m2; Leaf (TStr "-"); m3] /\
       yield m1 = [id_token "a"] /\ yield m2 = [id_token "b"] /\
       yield m3 = [id_token "c"]) /\
  (derives cspaced $"assignment_expression" [assign_nested] /\
   yield assign_nested = assign_tokens).
Proof.
  intros Hin D.
  split; [now apply ladder_shape|].
  split; [repeat split; reflexivity|].
  split; [exact assignment_shape|].
  split; [exact conditional_shape|].
  split; [exact cast_shape|].
  split; [exact unary_shape|].
  split; [split; [by_matcher|reflexivity]|].
  split; [exact minus_chain_is_flat|].
  split; [by_matcher|reflexivity].
Qed.

Lemma binding_ladder_witness :
  derives cspaced $"additive_expression" [minus_flat] /\
  exists cs, [minus_flat] = [Node "additive_expression" cs] /\
             chain cspaced "multiplicative_expression" ["+"; "-"] cs.
Proof.
  assert (D : derives cspaced $"additive_expression" [minus_flat]) by by_matcher.
  split; [exact D|].
  refine (proj1 (binding_ladder "additive_expression"
                   "multiplicative_expression" ["+"; "-"] [minus_flat] _ D)).
  do 9 right. now left.
Defined.

(** C4, as it is stated, fails at [a - b - c]: no derivation of an
    additive expression has [a - b] as the left operand of the second
    ['-']. *)
Lemma minus_chain_is_not_left_nested :
  ~ exists l rest,
      derives cspaced $"additive_expression"
        [Node "additive_expression" (l :: rest)] /\
      yield l = [id_token "a"; TStr "-"; id_token "b"] /\
      yields rest = [TStr "-"; id_token "c"].
Proof.
  intros (l & rest & D & El & _).
  inv_rule D "additive_expression" cs. injection H as <-.
  apply inv_seq_cons in D as (a & b & E & Da & _).
  pose proof Da as Da'. inv_rule Da' "multiplicative_expression" m. subst a.
  injection E as -> _.
  pose proof (first2_sound cspaced minus_cls minus_table minus_table_stable
                _ _ Da) as P.
  unfold yields in P. simpl flat_map in P. rewrite app_nil_r in P.
  change (flat_map yield m) with (yield (Node "multiplicative_expression" m)) in P.
  rewrite El in P. vm_compute in P.
  repeat (destruct P as [P|P]; [discriminate P|]). exact P.
Qed.

(** ** An [if] with an indented [return] (C5) *)











(** ** A [switch] with braces (C6) *)



(** ** The tokens of the indentation scanner (C7) *)

(** C7. The tokens [_indent], [_dedent] and [_newline] are declared as
    externals and no rule defines them; an external token in a derived
    sequence is always one of the declared externals, which no rule
    defines.  The extras are the one pattern [\s], which every whitespace
    character (and no other) matches; no string literal of a rule holds a
    whitespace character; and more whitespace in front of a text lays out
    the same tokens. *)
Theorem indentation_only_through_externals (r : rule) (ts : list tree) :
  derives cspaced r ts ->
  externals cspaced = ["_indent"; "_dedent"; "_newline"] /\
  (forall e, In e (externals cspaced) ->
     rule_of cspaced e = None /\
     (forall n body, rule_of cspaced n = Some body -> n <> e)) /\
  (forall e, In (TExt e) (yields ts) ->
     In e (externals cspaced) /\ rule_of cspaced e = None) /\
  extras cspaced = [PATTERN re_space] /\
  (forall c, is_extra cspaced c = true <-> In c whitespace) /\
  (forall n body s, rule_of cspaced n = Some body -> In s (strings body) ->
     has_whitespace s = false) /\
  (forall ws toks text,
     all_extra cspaced ws = true -> layout cspaced toks text ->
     layout cspaced toks (String.append ws text)).
Proof.
  intros D. split; [reflexivity|]. split.
  { intros e He.
    assert (E : rule_of cspaced e = None).
    { repeat (destruct He as [<-|He]; [vm_compute; reflexivity|]). destruct He. }
    split; [assumption|]. intros n body Hn ->. congruence. }
  split.
  { intros e He. destruct (derives_defined _ _ _ D) as [_ B].
    destruct (B _ He) as [X N]. split; [|assumption].
    apply mem_In. exact X. }
  split; [reflexivity|]. split; [exact is_extra_iff|].
  split; [exact literals_without_whitespace|].
  intros ws toks text. apply layout_indent.
Qed.

Lemma indentation_only_through_externals_witness :
  derives cspaced $"statement" [if_tree] /\
  forall e, In (TExt e) (yield if_tree) ->
            In e (externals cspaced) /\ rule_of cspaced e = None.
Proof.
  assert (D : derives cspaced $"statement" [if_tree]) by by_matcher.
  split; [exact D|].
  destruct (indentation_only_through_externals _ _ D) as (_ & _ & X & _).
  intros e He. apply X. apply in_flat_map.
  exists if_tree. split; [now left|exact He].
Defined.

(** ** The empty block (C8) *)


(** ** Rules without a definition (C10) *)

(** C10. No syntax tree holds a node of kind [function_definition],
    [union_specifier] or [_parenthesized_parameter_list]: [external_declaration],
    [type_specifier] and [_preproc_define_value] refer to these names, no
    rule defines them, and a reference to them derives nothing. *)
Theorem undefined_rules_never_appear (r : rule) (ts : list tree) :
  derives cspaced r ts ->
  (forall n k, In (n, k) dangling ->
     refers cspaced n k = true /\
     rule_of cspaced k = None /\
     ~ In k (flat_map kinds ts) /\
     (forall us, ~ derives cspaced (SYMBOL k) us)).
Proof.
  intros D n k Hk. destruct (derives_defined _ _ _ D) as [A _].
  assert (E : rule_of cspaced k = None /\ is_external cspaced k = false
              /\ refers cspaced n k = true).
  { repeat (destruct Hk as [[= <- <-]|Hk]; [repeat split; vm_compute; reflexivity|]).
    destruct Hk. }
  destruct E as (E1 & E2 & E3). repeat split; try assumption.
  - intros Hin. now apply (A _ Hin).
  - intros us. now apply undefined_derives_nothing.
Qed.

Lemma undefined_rules_never_appear_witness :
  derives cspaced $"statement" [if_tree] /\
  ~ In "function_definition" (kinds if_tree) /\
  (forall us, ~ derives cspaced $"function_definition" us).
Proof.
  assert (D : derives cspaced $"statement" [if_tree]) by by_matcher.
  split; [exact D|].
  destruct (undefined_rules_never_appear _ _ D
              "external_declaration" "function_definition")
    as (_ & _ & N & U); [now left|].
  split; [|exact U]. intros H. apply N. apply in_flat_map.
  exists if_tree. split; [now left|exact H].
Defined.

(** * Further properties *)

(** ** The matcher and the language of a regular expression *)

Lemma append_nil_r (s : string) : String.append s EmptyString = s.
Proof. induction s as [|c s IH]; simpl; [reflexivity|now f_equal]. Qed.

Lemma append_eq_nil (a b : string) :
  String.append a b = EmptyString -> a = EmptyString /\ b = EmptyString.
Proof. destruct a; simpl; [auto|discriminate]. Qed.

Lemma nullable_lang r : nullable r = true <-> lang r EmptyString.
Proof.
  split.
  - induction r; simpl; intros H; try discriminate.
    + constructor.
    + apply andb_prop in H as [H1 H2].
      change EmptyString with (String.append EmptyString EmptyString).
      constructor; auto.
    + apply orb_prop in H as [H|H]; [apply L_alt_l|apply L_alt_r]; auto.
    + constructor.
    + change EmptyString with (String.append EmptyString EmptyString).
      constructor; [auto|constructor].
  - intros H. remember EmptyString as s eqn:E.
    induction H; try discriminate; simpl; try reflexivity.
    + apply append_eq_nil in E as [-> ->]. now rewrite IHlang1, IHlang2.
    + rewrite IHlang; auto.
    + rewrite IHlang; auto. apply orb_true_r.
    + apply append_eq_nil in E as [-> ->]. auto.
Qed.

Lemma lang_of_bool b s : lang (of_bool b) s -> b = true /\ s = EmptyString.
Proof. destruct b; simpl; inversion 1; auto. Qed.

Lemma deriv_sound c r : forall s, lang (deriv c r) s -> lang r (String c s).
Proof.
  induction r; intros s H; simpl in H;
    try (apply lang_of_bool in H as [H ->]); try (now inversion H).
  - apply Ascii.eqb_eq in H. subst. constructor.
  - constructor. now apply negb_true_iff.
  - now constructor.
  - now constructor.
  - destruct (nullable r1) eqn:N.
    + inversion H as [| | | | | | a b s' H'| a b s' H' | | |]; subst.
      * inversion H' as [| | | | |a b s1 s2 H1 H2| | | | |]; subst.
        apply IHr1 in H1.
        change (String c (String.append s1 s2))
          with (String.append (String c s1) s2).
        now constructor.
      * apply IHr2 in H'. apply nullable_lang in N.
        change (String c s) with (String.append EmptyString (String c s)).
        now constructor.
    + inversion H as [| | | | |a b s1 s2 H1 H2| | | | |]; subst.
      apply IHr1 in H1.
      change (String c (String.append s1 s2))
        with (String.append (String c s1) s2).
      now constructor.
  - inversion H; subst; [apply L_alt_l|apply L_alt_r]; auto.
  - inversion H as [| | | | |a b s1 s2 H1 H2| | | | |]; subst.
    apply IHr in H1.
    change (String c (String.append s1 s2))
      with (String.append (String c s1) s2).
    now constructor.
  - inversion H as [| | | | |a b s1 s2 H1 H2| | | | |]; subst.
    apply IHr in H1.
    change (String c (String.append s1 s2))
      with (String.append (String c s1) s2).
    now constructor.
Qed.

Lemma deriv_complete c r s' :
  lang r s' -> forall s, s' = String c s -> lang (deriv c r) s.
Proof.
  induction 1 as [ | d | d Hd | k d Hd | neg rs d Hd
                 | a b s1 s2 H1 IH1 H2 IH2 | a b s0 H IH | a b s0 H IH
                 | a | a s1 s2 H1 IH1 H2 IH2 | a s1 s2 H1 IH1 H2 IH2 ];
    intros s E; simpl; try discriminate.
  - injection E as -> <-. rewrite Ascii.eqb_refl. constructor.
  - injection E as -> <-. rewrite Hd. constructor.
  - injection E as -> <-. rewrite Hd. constructor.
  - injection E as -> <-. rewrite Hd. constructor.
  - destruct s1 as [|d s1].
    + simpl in E. apply nullable_lang in H1. rewrite H1.
      apply L_alt_r. auto.
    + simpl in E. injection E as -> <-.
      destruct (nullable a); [apply L_alt_l|]; constructor; auto.
  - apply L_alt_l. auto.
  - apply L_alt_r. auto.
  - destruct s1 as [|d s1].
    + simpl in E. exact (IH2 _ E).
    + simpl in E. injection E as -> <-. constructor; auto.
  - destruct s1 as [|d s1].
    + simpl in E. exact (IH2 _ E).
    + simpl in E. injection E as -> <-. constructor; auto.
Qed.

(** The matcher decides the language. *)
Lemma re_match_lang s : forall r, re_match r s = true <-> lang r s.
Proof.
  induction s as [|c s IH]; intros r; simpl.
  - apply nullable_lang.
  - rewrite IH. split; [apply deriv_sound|].
    intros H. now apply (deriv_complete c r _ H).
Qed.

Lemma dead_lang r s : dead r = true -> ~ lang r s.
Proof.
  intros H L. induction L; simpl in H; try discriminate; auto.
  - apply andb_prop in H as [H _]. auto.
  - apply andb_prop in H as [_ H]. auto.
Qed.

Lemma dead_match r s : dead r = true -> re_match r s = false.
Proof.
  intros H. destruct (re_match r s) eqn:E; [|reflexivity].
  apply re_match_lang in E. now apply dead_lang in E.
Qed.

Lemma all_chars_app P a b :
  all_chars P (String.append a b) = all_chars P a && all_chars P b.
Proof.
  induction a as [|c a IH]; simpl; [reflexivity|].
  now rewrite IH, andb_assoc.
Qed.

Section OneCharacter.
(** [a] has the one-character texts whose character satisfies [P]. *)
Variable a : regex.
Variable P : ascii -> bool.
Hypothesis one_char :
  forall s, lang a s <-> exists c, s = String c EmptyString /\ P c = true.

Lemma star_chars s : lang (RStar a) s <-> all_chars P s = true.
Proof.
  split.
  - intros H. remember (RStar a) as r eqn:E.
    induction H; try discriminate; injection E as ->; [reflexivity|].
    apply one_char in H as (c & -> & Hc). simpl. rewrite Hc. auto.
  - induction s as [|c s IH]; simpl; intros H; [constructor|].
    apply andb_prop in H as [Hc Hs].
    change (String c s) with (String.append (String c EmptyString) s).
    constructor; [|auto]. apply one_char. eauto.
Qed.

Lemma plus_chars s :
  lang (RPlus a) s <-> s <> EmptyString /\ all_chars P s = true.
Proof.
  split.
  - inversion 1 as [| | | | | | | | | |a' s1 s2 H1 H2]; subst.
    apply one_char in H1 as (c & -> & Hc). apply star_chars in H2.
    simpl. rewrite Hc, H2. split; [discriminate|reflexivity].
  - intros [N H]. destruct s as [|c s]; [congruence|]. simpl in H.
    apply andb_prop in H as [Hc Hs].
    change (String c s) with (String.append (String c EmptyString) s).
    constructor; [apply one_char; eauto|now apply star_chars].
Qed.

End OneCharacter.

Lemma one_char_any s :
  lang RAny s <-> exists c, s = String c EmptyString /\ not_line_terminator c = true.
Proof.
  unfold not_line_terminator. split.
  - inversion 1; subst. eexists. split; [reflexivity|]. now apply negb_true_iff.
  - intros (c & -> & H). constructor. now apply negb_true_iff.
Qed.

Lemma one_char_cls k s :
  lang (RCls k) s <-> exists c, s = String c EmptyString /\ in_cls k c = true.
Proof.
  split; [inversion 1; subst; eauto|intros (c & -> & H); now constructor].
Qed.

Lemma one_char_set neg rs s :
  lang (RSet neg rs) s <->
  exists c, s = String c EmptyString /\ xorb neg (existsb (in_range c) rs) = true.
Proof.
  split; [inversion 1; subst; eauto|intros (c & -> & H); now constructor].
Qed.

Lemma integer_texts s :
  re_match re_integer s = true <->
  s <> EmptyString /\ all_chars is_digit s = true.
Proof.
  rewrite re_match_lang. apply plus_chars. intros x. apply one_char_cls.
Qed.

Lemma rest_of_line_texts s :
  re_match re_rest_of_line s = true <->
  s <> EmptyString /\ all_chars not_line_terminator s = true.
Proof.
  rewrite re_match_lang. apply plus_chars. intros x. apply one_char_any.
Qed.

(** ** The lexical rules *)

Lemma number_needs_digit c p :
  In p number_alternatives -> is_digit c = false -> dead (deriv c p) = true.
Proof.
  intros Hp.
  repeat (destruct Hp as [<-|Hp];
    [destruct c as [[] [] [] [] [] [] [] []]; vm_compute; intros H;
     first [reflexivity|discriminate H]|]).
  destruct Hp.
Qed.

Lemma identifier_needs_no_digit c :
  is_digit c = true -> dead (deriv c re_identifier) = true.
Proof.
  destruct c as [[] [] [] [] [] [] [] []]; vm_compute; intros H;
    first [reflexivity|discriminate H].
Qed.

Lemma number_literal_token p x :
  derives cspaced $"number_literal" [Node "number_literal" [Leaf (TPat p x)]] ->
  In p number_alternatives /\ re_match p x = true.
Proof.
  intros D. inv_rule D "number_literal" cs. injection H as <-.
  apply inv_choice in D as (q & Hq & D).
  repeat (destruct Hq as [<-|Hq];
    [apply inv_pattern in D as (text & [= -> ->] & M); split; [|exact M];
     unfold number_alternatives; simpl; tauto|]).
  destruct Hq.
Qed.

(** X1. The texts of identifiers and of number literals are apart: a text
    of the identifier pattern is not empty, matches none of the patterns
    of [number_literal], and is the text of no [number_literal] node. *)
Theorem identifier_is_no_number (x : string) :
  re_match re_identifier x = true ->
  x <> EmptyString /\
  (forall p, In p number_alternatives -> re_match p x = false) /\
  (forall p, ~ derives cspaced $"number_literal"
                 [Node "number_literal" [Leaf (TPat p x)]]).
Proof.
  intros H.
  assert (A : forall p, In p number_alternatives -> re_match p x = false).
  { intros p Hp. destruct x as [|c s]; [discriminate H|]. simpl in *.
    destruct (is_digit c) eqn:Dg.
    - rewrite dead_match in H; [discriminate H|].
      now apply identifier_needs_no_digit.
    - apply dead_match. now apply number_needs_digit. }
  split; [intros ->; discriminate H|]. split; [exact A|].
  intros p D. apply number_literal_token in D as [Hp M].
  rewrite (A p Hp) in M. discriminate M.
Qed.

Lemma identifier_is_no_number_witness :
  re_match re_identifier "x1" = true /\
  ~ derives cspaced $"number_literal"
      [Node "number_literal" [Leaf (TPat re_integer "x1")]].
Proof.
  split; [reflexivity|].
  exact (proj2 (proj2 (identifier_is_no_number "x1" eq_refl)) re_integer).
Defined.

Lemma lang_char_seq c b s :
  lang (RSeq (RChar c) b) s -> exists s', s = String c s' /\ lang b s'.
Proof.
  inversion 1 as [| | | | |a b' s1 s2 H1 H2| | | | |]; subst.
  inversion H1; subst. simpl. eauto.
Qed.

Lemma lang_set_seq rs b s :
  lang (RSeq (RSet false rs) b) s ->
  exists c s', s = String c s' /\ existsb (in_range c) rs = true /\ lang b s'.
Proof.
  inversion 1 as [| | | | |a b' s1 s2 H1 H2| | | | |]; subst.
  inversion H1; subst. simpl. eauto.
Qed.

Lemma octal_digit c :
  existsb (in_range c) [("0", "7")]%char = true -> is_digit c = true.
Proof.
  destruct c as [[] [] [] [] [] [] [] []]; vm_compute; intros H;
    first [reflexivity|discriminate H].
Qed.

Lemma letter_is_no_digit c :
  existsb (in_range c) [("x", "x"); ("X", "X")]%char = true
  \/ existsb (in_range c) [("b", "b"); ("B", "B")]%char = true
  \/ c = "."%char ->
  is_digit c = false.
Proof.
  destruct c as [[] [] [] [] [] [] [] []]; vm_compute;
    intros [H|[H|H]]; first [reflexivity|discriminate H].
Qed.

Lemma all_chars_weaken (P Q : ascii -> bool) s :
  (forall c, P c = true -> Q c = true) ->
  all_chars P s = true -> all_chars Q s = true.
Proof.
  intros W. induction s as [|c s IH]; simpl; [reflexivity|].
  intros H. apply andb_prop in H as [Hc Hs]. rewrite (W _ Hc). auto.
Qed.

(** X2. Every text of the octal pattern of [number_literal] is a text of
    its integer pattern, which stands before it in the [choice]; a text of
    the hexadecimal, binary or floating-point pattern is never one. *)
Theorem octal_is_integer (x : string) :
  re_match re_octal x = true ->
  re_match re_integer x = true /\
  (forall y, re_match re_hex y = true \/ re_match re_binary y = true
             \/ re_match re_float y = true ->
             re_match re_integer y = false) /\
  rule_of cspaced "number_literal"
  = Some (choice (map PATTERN number_alternatives)).
Proof.
  intros H. split; [|split; [|reflexivity]].
  - apply re_match_lang, lang_char_seq in H as (s & -> & H).
    apply (plus_chars _ _ (one_char_set false _)) in H as [N H].
    apply integer_texts. split; [discriminate|]. simpl.
    apply (all_chars_weaken _ is_digit) in H; [exact H|].
    intros c Hc. now apply octal_digit.
  - intros y Hy. destruct (re_match re_integer y) eqn:E; [|reflexivity].
    apply integer_texts in E as [_ E].
    destruct Hy as [Hy|[Hy|Hy]]; apply re_match_lang in Hy.
    + apply lang_char_seq in Hy as (s & -> & Hy).
      apply lang_set_seq in Hy as (c & s' & -> & Hc & _).
      cbn [all_chars] in E. rewrite (letter_is_no_digit c) in E by auto.
      rewrite andb_false_l, andb_false_r in E. discriminate E.
    + apply lang_char_seq in Hy as (s & -> & Hy).
      apply lang_set_seq in Hy as (c & s' & -> & Hc & _).
      cbn [all_chars] in E. rewrite (letter_is_no_digit c) in E by auto.
      rewrite andb_false_l, andb_false_r in E. discriminate E.
    + inversion Hy as [| | | | |a b s1 s2 H1 H2| | | | |]; subst.
      apply lang_char_seq in H2 as (s & -> & _).
      rewrite all_chars_app in E. cbn [all_chars] in E.
      change (is_digit "."%char) with false in E.
      rewrite andb_false_l, andb_false_r in E. discriminate E.
Qed.

Lemma octal_is_integer_witness :
  re_match re_octal "017" = true /\ re_match re_integer "017" = true.
Proof.
  split; [reflexivity|].
  exact (proj1 (octal_is_integer "017" eq_refl)).
Defined.

(** X3. The argument of [#if], [#pragma], [#line] and [#error] is one
    token of the pattern [/.+/]: its text is not empty and holds no line
    terminator; and every such text makes the directive. *)
Theorem directive_argument (n kw : string) (cs : list tree) :
  In (n, kw) line_directives ->
  derives cspaced (SYMBOL n) [Node n cs] ->
  (exists text,
     cs = [Leaf (TStr kw); Leaf (TPat re_rest_of_line text)] /\
     text <> EmptyString /\ all_chars not_line_terminator text = true) /\
  (forall text,
     text <> EmptyString -> all_chars not_line_terminator text = true ->
     derives cspaced (SYMBOL n)
       [Node n [Leaf (TStr kw); Leaf (TPat re_rest_of_line text)]]).
Proof.
  intros Hin D. split.
  - repeat (destruct Hin as [[= <- <-]|Hin];
      [ match type of D with
        | derives _ (SYMBOL ?k) _ => inv_rule D k cs'
        end;
        injection H as <-;
        apply inv_seq_cons in D as (a1 & b1 & -> & D1 & D);
        apply inv_seq_cons in D as (a2 & b2 & -> & D2 & D);
        apply inv_seq_nil in D as ->; apply inv_string in D1 as ->;
        try (apply (inv_hidden cspaced "_preproc_expression"
                      (PATTERN re_rest_of_line)) in D2;
             [|reflexivity|reflexivity]);
        apply inv_pattern in D2 as (text & -> & M);
        apply rest_of_line_texts in M as [N A];
        exists text; auto
      | ]).
    destruct Hin.
  - intros text N A.
    assert (M : re_match re_rest_of_line text = true)
      by (apply rest_of_line_texts; auto).
    assert (P : derives cspaced (PATTERN re_rest_of_line)
                  [Leaf (TPat re_rest_of_line text)]) by now constructor.
    repeat (destruct Hin as [[= <- <-]|Hin];
      [ eapply D_named; [vm_compute; reflexivity|reflexivity|];
        apply (derives_seq2 cspaced _ _ [_] [_]); [constructor|];
        first [exact P
              | eapply D_hidden; [vm_compute; reflexivity|reflexivity|exact P]]
      | ]).
    destruct Hin.
Qed.

Lemma directive_argument_witness :
  exists text,
    [Leaf (TStr "#pragma"); Leaf (TPat re_rest_of_line "once")]
    = [Leaf (TStr "#pragma"); Leaf (TPat re_rest_of_line text)] /\
    text <> EmptyString /\ all_chars not_line_terminator text = true.
Proof.
  refine (proj1 (directive_argument "preproc_pragma" "#pragma" _ _ _)).
  - right. now left.
  - by_matcher.
Defined.

Lemma in_range_single c q : in_range c (q, q) = Ascii.eqb c q.
Proof.
  unfold in_range. simpl. destruct (Ascii.eqb c q) eqn:E.
  - apply Ascii.eqb_eq in E. subst. now rewrite Nat.leb_refl.
  - destruct (Nat.leb (nat_of_ascii q) (nat_of_ascii c)) eqn:A;
      [|reflexivity].
    destruct (Nat.leb (nat_of_ascii c) (nat_of_ascii q)) eqn:B;
      [|reflexivity].
    apply Nat.leb_le in A, B.
    assert (X : nat_of_ascii c = nat_of_ascii q) by lia.
    apply (f_equal ascii_of_nat) in X. rewrite !ascii_nat_embedding in X.
    subst. rewrite Ascii.eqb_refl in E. discriminate E.
Qed.

Lemma plain_body q body :
  all_chars (plain q) body = true ->
  lang (RStar (RAlt (RSet true [(q, q); ("\", "\")]%char)
                    (RSeq (RChar "\") RAny))) body.
Proof.
  induction body as [|c body IH]; simpl; intros H; [constructor|].
  apply andb_prop in H as [Hc Hb].
  change (String c body) with (String.append (String c EmptyString) body).
  constructor; [|auto]. apply L_alt_l. constructor.
  unfold plain in Hc. simpl. rewrite !in_range_single.
  apply andb_prop in Hc as [H1 H2].
  apply negb_true_iff in H1, H2. now rewrite H1, H2.
Qed.

Lemma quoted_text q s :
  re_match (re_quoted q) s = true -> exists body, s = quoted q body.
Proof.
  intros H. apply re_match_lang, lang_char_seq in H as (s1 & -> & H).
  inversion H as [| | | | |a b s2 s3 H2 H3| | | | |]; subst.
  inversion H3; subst. exists s2. reflexivity.
Qed.

(** X4. A string literal and a character literal start and end with their
    quote; between the quotes any number of characters that are neither
    the quote nor a backslash is accepted: none at all, several in a
    character literal, line terminators too. *)
Theorem quoted_literal (q : ascii) (p : regex) (body : string) :
  In (q, p) quoted_literals ->
  all_chars (plain q) body = true ->
  re_match p (quoted q body) = true /\
  (forall s, re_match p s = true -> exists b, s = quoted q b) /\
  (rule_of cspaced "string_literal" = Some (PATTERN re_string) /\
   rule_of cspaced "character_literal" = Some (PATTERN re_character)).
Proof.
  intros Hin Hb.
  assert (E : p = re_quoted q).
  { destruct Hin as [[= <- <-]|[[= <- <-]|[]]]; reflexivity. }
  subst p. split; [|split; [intros s; apply quoted_text|split; reflexivity]].
  apply re_match_lang. unfold re_quoted, quoted.
  change (String q (String.append body (String q EmptyString)))
    with (String.append (String q EmptyString)
            (String.append body (String q EmptyString))).
  constructor; [constructor|]. constructor; [|constructor].
  now apply plain_body.
Qed.

Lemma quoted_literal_witness :
  re_match re_character (quoted "'" "abc") = true /\
  re_match re_character (quoted "'" EmptyString) = true /\
  re_match re_string (quoted "034" (String.append "a" (String.append nl "b")))
  = true.
Proof.
  split; [|split].
  - exact (proj1 (quoted_literal "'" re_character "abc"
                    (or_intror (or_introl eq_refl)) eq_refl)).
  - exact (proj1 (quoted_literal "'" re_character EmptyString
                    (or_intror (or_introl eq_refl)) eq_refl)).
  - exact (proj1 (quoted_literal "034" re_string
                    (String.append "a" (String.append nl "b"))
                    (or_introl eq_refl) eq_refl)).
Defined.

(** ** The start rule *)

(** X5. Nothing derived from the start rule [translation_unit] holds a
    statement of any kind other than the empty statement, an indentation
    block, or a BLOCK-START or BLOCK-END token: the start rule reaches
    declarations, directives and [';'] only. *)
Theorem start_rule_has_no_statement (ts : list tree) :
  derives cspaced $"translation_unit" ts ->
  (forall k, In k statement_kinds -> ~ In k (flat_map kinds ts)) /\
  ~ In (TExt "_indent") (yields ts) /\
  ~ In (TExt "_dedent") (yields ts) /\
  incl (flat_map kinds ts) unit_names.
Proof.
  intros D.
  assert (C : closedb cspaced unit_names = true) by (vm_compute; reflexivity).
  destruct (derives_closed cspaced unit_names C _ _ D) as [A B].
  { intros x [<-|[]]. apply mem_In. vm_compute. reflexivity. }
  repeat split; try assumption.
  - intros k Hk Hin. apply A, mem_In in Hin.
    repeat (destruct Hk as [<-|Hk]; [vm_compute in Hin; discriminate Hin|]).
    destruct Hk.
  - intros Hin. apply In_ext_names, B, mem_In in Hin.
    vm_compute in Hin. discriminate Hin.
  - intros Hin. apply In_ext_names, B, mem_In in Hin.
    vm_compute in Hin. discriminate Hin.
Qed.

Lemma start_rule_has_no_statement_witness :
  derives cspaced $"translation_unit" [int_x_unit] /\
  ~ In "statement" (flat_map kinds [int_x_unit]).
Proof.
  assert (D : derives cspaced $"translation_unit" [int_x_unit]) by by_matcher.
  split; [exact D|].
  apply (proj1 (start_rule_has_no_statement _ D)). now left.
Defined.

Lemma no_empty_prefix n body :
  rule_of cspaced n = Some body -> n <> "translation_unit" ->
  ~ In [] (env_of id_table n).
Proof.
  intros Hr Hn Hin. apply js_get_In in Hr.
  assert (A : forallb (fun nr => String.eqb (fst nr) "translation_unit"
                                 || negb (pmem [] (env_of id_table (fst nr))))
                      (rules cspaced) = true) by (vm_compute; reflexivity).
  rewrite forallb_forall in A. specialize (A _ Hr). simpl in A.
  apply orb_prop in A as [A|A].
  - apply String.eqb_eq in A. contradiction.
  - apply negb_true_iff in A. unfold pmem in A.
    destruct (in_dec peq [] (env_of id_table n)); [discriminate A|contradiction].
Qed.

Lemma rule_is_not_empty n body ts :
  rule_of cspaced n = Some body -> n <> "translation_unit" ->
  derives cspaced (SYMBOL n) ts -> yields ts <> [].
Proof.
  intros Hr Hn D E.
  pose proof (first2_sound cspaced id_cls id_table id_table_stable _ _ D) as P.
  rewrite E in P. simpl first2 in P. rewrite Hr in P.
  now apply (no_empty_prefix n body Hr Hn).
Qed.

(** X6. The empty input is a translation unit, and it is the only thing
    that is empty: what any other rule derives holds at least one token. *)
Theorem only_the_unit_is_empty (n : string) (body : rule) (ts : list tree) :
  rule_of cspaced n = Some body ->
  n <> "translation_unit" ->
  derives cspaced (SYMBOL n) ts ->
  yields ts <> [] /\
  (derives cspaced $"translation_unit" [empty_unit] /\ yield empty_unit = []).
Proof.
  intros Hr Hn D. split; [|split; [by_matcher|reflexivity]].
  now apply rule_is_not_empty with (n := n) (body := body).
Qed.

Lemma only_the_unit_is_empty_witness :
  derives cspaced $"declaration" [main_header] /\ yields [main_header] <> [].
Proof.
  assert (D : derives cspaced $"declaration" [main_header]) by by_matcher.
  split; [exact D|].
  refine (proj1 (only_the_unit_is_empty "declaration" _ _ _ _ D)).
  - vm_compute. reflexivity.
  - discriminate.
Defined.

(** ** Brackets and blocks *)

Lemma effect_eqb_eq a b : effect_eqb a b = true -> a = b.
Proof.
  destruct a, b. unfold effect_eqb. simpl. intros H.
  apply andb_prop in H as [H1 H2].
  apply Nat.eqb_eq in H1, H2. now subst.
Qed.

Section NestingSound.
Variables opening closing : terminal.
Variable g : grammar.
Hypothesis g_balanced : balanced opening closing g = true.

Abbreviation depth := (depth_after opening closing).
Abbreviation eff := (effect opening closing g).

Lemma depth_app (a b : list token) d :
  depth d (a ++ b)
  = match depth d a with Some d' => depth d' b | None => None end.
Proof.
  revert d. induction a as [|t a IH]; intros d; simpl; [reflexivity|].
  destruct (terminal_eqb (terminal_of t) opening); [apply IH|].
  destruct (terminal_eqb (terminal_of t) closing); [|apply IH].
  destruct d; [reflexivity|apply IH].
Qed.

Lemma apply_then e1 e2 d :
  apply_effect (then_effect e1 e2) d
  = match apply_effect e1 d with
    | Some d' => apply_effect e2 d'
    | None => None
    end.
Proof.
  destruct e1 as [n1 o1], e2 as [n2 o2].
  unfold apply_effect, then_effect. simpl.
  destruct (Nat.leb n2 o1) eqn:A; simpl;
    destruct (Nat.leb n1 d) eqn:B; simpl;
    try apply Nat.leb_le in A; try apply Nat.leb_gt in A;
    try apply Nat.leb_le in B; try apply Nat.leb_gt in B.
  - destruct (Nat.leb n2 (d - n1 + o1)) eqn:C;
      [apply Nat.leb_le in C|apply Nat.leb_gt in C]; [f_equal|]; lia.
  - reflexivity.
  - destruct (Nat.leb (n1 + (n2 - o1)) d) eqn:C;
      [apply Nat.leb_le in C|apply Nat.leb_gt in C];
      destruct (Nat.leb n2 (d - n1 + o1)) eqn:E;
      try apply Nat.leb_le in E; try apply Nat.leb_gt in E;
      try (f_equal; lia); try lia; reflexivity.
  - destruct (Nat.leb (n1 + (n2 - o1)) d) eqn:C;
      [apply Nat.leb_le in C; lia|reflexivity].
Qed.

Lemma depth_token t d :
  depth d [t] = apply_effect (terminal_effect opening closing (terminal_of t)) d.
Proof.
  unfold terminal_effect, apply_effect. simpl.
  destruct (terminal_eqb (terminal_of t) opening); simpl.
  - f_equal. lia.
  - destruct (terminal_eqb (terminal_of t) closing); simpl.
    + destruct d; simpl; [reflexivity|]. f_equal. lia.
    + f_equal. lia.
Qed.

Lemma balanced_body n r :
  rule_of g n = Some r -> eff r = Some (0, 0).
Proof.
  intros Hr. apply js_get_In in Hr. unfold balanced in g_balanced.
  rewrite forallb_forall in g_balanced. specialize (g_balanced _ Hr).
  simpl in g_balanced. destruct (eff r) as [e|]; [|discriminate].
  apply effect_eqb_eq in g_balanced. now subst.
Qed.

Lemma effect_choice r rs e :
  In r rs -> eff (CHOICE rs) = Some e -> eff r = Some e.
Proof.
  intros Hin H. destruct rs as [|r0 rs]; [contradiction|].
  simpl in H. destruct (eff r0) as [e0|] eqn:E0; [|discriminate].
  destruct (forallb _ rs) eqn:F; [|discriminate]. injection H as ->.
  destruct Hin as [<-|Hin]; [assumption|].
  rewrite forallb_forall in F. specialize (F _ Hin).
  destruct (eff r) as [e'|]; [|discriminate].
  apply effect_eqb_eq in F. now subst.
Qed.

Lemma effect_repeat r e :
  eff (REPEAT r) = Some e -> e = (0, 0) /\ eff r = Some (0, 0).
Proof.
  simpl. destruct (eff r) as [e'|]; [|discriminate].
  destruct (effect_eqb e' (0, 0)) eqn:E; [|discriminate].
  apply effect_eqb_eq in E. subst. intros [= <-]. auto.
Qed.

(** The depth after what [r] derives is the depth before, changed by the
    effect of [r]. *)
Lemma effect_sound r ts :
  derives g r ts ->
  forall e, eff r = Some e ->
  forall d, depth d (yields ts) = apply_effect e d.
Proof.
  induction 1 as [ | s | p text Hm | n r ts Hr Hh D IH | n r ts Hr Hh D IH
                 | n Hr He | | r rs ts1 ts2 D1 IH1 D2 IH2 | r rs ts Hin D IH
                 | r | r ts1 ts2 D1 IH1 D2 IH2 | r ts1 ts2 D1 IH1 D2 IH2 ];
    intros e He' d.
  - injection He' as <-. unfold apply_effect. simpl. f_equal. lia.
  - injection He' as <-. apply (depth_token (TStr s)).
  - injection He' as <-. apply (depth_token (TPat p text)).
  - simpl in He'. rewrite Hr in He'. injection He' as <-.
    unfold yields. simpl. rewrite app_nil_r.
    apply (IH _ (balanced_body _ _ Hr)).
  - simpl in He'. rewrite Hr in He'. injection He' as <-.
    apply (IH _ (balanced_body _ _ Hr)).
  - simpl in He'. rewrite Hr in He'. injection He' as <-.
    apply (depth_token (TExt n)).
  - injection He' as <-. unfold apply_effect. simpl. f_equal. lia.
  - change (eff (SEQ (r :: rs)))
      with (match eff r, eff (SEQ rs) with
            | Some e1, Some e2 => Some (then_effect e1 e2)
            | _, _ => None
            end) in He'.
    destruct (eff r) as [e1|]; [|discriminate].
    destruct (eff (SEQ rs)) as [e2|]; [|discriminate].
    injection He' as <-.
    rewrite yields_app, depth_app, (IH1 _ eq_refl), apply_then.
    destruct (apply_effect e1 d); [apply (IH2 _ eq_refl)|reflexivity].
  - apply (IH _ (effect_choice _ _ _ Hin He')).
  - apply effect_repeat in He' as [-> _]. unfold apply_effect. simpl.
    f_equal. lia.
  - pose proof He' as He''. apply effect_repeat in He'' as [-> Hr].
    rewrite yields_app, depth_app, (IH1 _ Hr).
    unfold apply_effect at 1. simpl. rewrite Nat.sub_0_r, Nat.add_0_r.
    apply (IH2 _ He').
  - assert (Hr : eff r = Some (0, 0) /\ e = (0, 0)).
    { simpl in He'. destruct (eff r) as [e'|]; [|discriminate].
      destruct (effect_eqb e' (0, 0)) eqn:E; [|discriminate].
      apply effect_eqb_eq in E. subst. injection He' as <-. auto. }
    destruct Hr as [Hr ->].
    assert (Hs : eff (REPEAT r) = Some (0, 0)) by (simpl; now rewrite Hr).
    rewrite yields_app, depth_app, (IH1 _ Hr).
    unfold apply_effect at 1. simpl. rewrite Nat.sub_0_r, Nat.add_0_r.
    apply (IH2 _ Hs).
Qed.

End NestingSound.

(** X7. In everything a rule derives, parentheses, square brackets,
    braces and the BLOCK-START / BLOCK-END tokens are each well nested:
    reading the tokens from the left, no closing token comes without an
    open partner, and at the end all are closed. *)
Theorem brackets_are_nested (n : string) (body : rule) (ts : list tree)
        (o c : terminal) :
  rule_of cspaced n = Some body ->
  derives cspaced (SYMBOL n) ts ->
  In (o, c) bracket_pairs ->
  depth_after o c 0 (yields ts) = Some 0.
Proof.
  intros Hr D Hin.
  assert (B : balanced o c cspaced = true).
  { repeat (destruct Hin as [[= <- <-]|Hin]; [vm_compute; reflexivity|]).
    destruct Hin. }
  rewrite (effect_sound o c cspaced B _ _ D (0, 0)); [reflexivity|].
  simpl. now rewrite Hr.
Qed.

Lemma brackets_are_nested_witness :
  depth_after (KExt "_indent") (KExt "_dedent") 0 (yields [if_tree]) = Some 0 /\
  depth_after (KStr "(") (KStr ")") 0 (yields [if_tree]) = Some 0.
Proof.
  assert (D : derives cspaced $"statement" [if_tree]) by by_matcher.
  assert (R : rule_of cspaced "statement"
              = Some (choice [$"labeled_statement"; $"compound_statement";
                              $"expression_statement"; $"selection_statement";
                              $"iteration_statement"; $"jump_statement";
                              $"empty_statement"])) by reflexivity.
  split.
  - apply (brackets_are_nested _ _ _ _ _ R D). do 3 right. now left.
  - apply (brackets_are_nested _ _ _ _ _ R D). now left.
Defined.

(** ** The helper [binary_expression] *)

Lemma operator_derives g ops o :
  In o ops -> derives g (operator_rule ops) [Leaf (TStr o)].
Proof.
  intros Hin.
  assert (C : derives g (choice (map STRING ops)) [Leaf (TStr o)]).
  { apply D_choice with (r := STRING o); [now apply in_map|constructor]. }
  destruct ops as [|o1 [|o2 ops]]; simpl; [contradiction| |exact C].
  destruct Hin as [->|[]]. constructor.
Qed.

Lemma chain_odd g operand ops ts :
  chain g operand ops ts -> Nat.odd (length ts) = true.
Proof.
  induction 1 as [t D|t o rest D Ho C IH]; [reflexivity|].
  simpl length. now rewrite Nat.odd_succ_succ.
Qed.

(** X8. For a visible, defined rule [operand],
    [binary_expression(operator, operand)] derives exactly the chains of
    one operand followed by any number of pairs of an operator and an
    operand: never nothing, never a trailing operator, and always an odd
    number of children. *)
Theorem binary_expression_chains (g : grammar) (ops : list string)
        (operand : string) (body : rule) (ts : list tree) :
  rule_of g operand = Some body ->
  hidden operand = false ->
  (derives g (binary_expression (operator_rule ops) (SYMBOL operand)) ts
   <-> chain g operand ops ts) /\
  (chain g operand ops ts -> Nat.odd (length ts) = true).
Proof.
  intros Hr Hh. split; [split|apply chain_odd].
  - now apply binary_expression_shape with (body := body).
  - induction 1 as [t D|t o rest D Ho C IH].
    + apply (derives_seq2 g _ _ [t] []); [assumption|constructor].
    + unfold binary_expression, seq, repeat in IH.
      apply inv_seq_cons in IH as (a & b & -> & Da & IH).
      apply inv_seq_cons in IH as (c & d & -> & Dc & IH).
      apply inv_seq_nil in IH as ->. rewrite app_nil_r.
      apply (derives_seq2 g _ _ [t] (([Leaf (TStr o)] ++ a) ++ c));
        [assumption|].
      constructor; [|assumption].
      apply derives_seq2; [now apply operator_derives|assumption].
Qed.

Lemma binary_expression_chains_witness :
  chain cspaced "multiplicative_expression" ["+"; "-"]
    (as_level "multiplicative_expression" (ident "a")
     ++ [lit "-"] ++ as_level "multiplicative_expression" (ident "b")).
Proof.
  apply (binary_expression_chains cspaced ["+"; "-"]
           "multiplicative_expression"
           (binary_expression (choice [STRING "*"; STRING "/"; STRING "%"])
                              $"cast_expression")
           _ eq_refl eq_refl).
  by_matcher.
Defined.

(** ** Nesting without bound *)

(** One step up the chain of expression rules. *)
Ltac level_up :=
  eapply D_named; [vm_compute; reflexivity|reflexivity|];
  first
    [ apply (derives_seq2 cspaced _ _ [_] []);
      [|first [apply D_repeat_nil|apply derives_optional_none]]
    | match goal with
      | |- derives _ (CHOICE _) [Node ?k _] =>
          apply D_choice with (r := SYMBOL k); [simpl; tauto|]
      end ].

Lemma as_level_derives k leaf :
  In k expression_levels ->
  derives cspaced $"primary_expression" [Node "primary_expression" [leaf]] ->
  derives cspaced (SYMBOL k) (as_level k leaf).
Proof.
  intros Hk D.
  repeat (destruct Hk as [<-|Hk];
    [cbv [as_level from below nest fold_right expression_levels binary_levels
          app String.eqb Ascii.eqb Bool.eqb];
     repeat level_up; exact D|]).
  destruct Hk.
Qed.

Lemma parenthesized_derives e :
  derives cspaced $"expression" e ->
  derives cspaced $"primary_expression"
    [Node "primary_expression" [parenthesized e]].
Proof.
  intros D. eapply D_named; [vm_compute; reflexivity|reflexivity|].
  apply D_choice with (r := $"parenthesized_expression"); [simpl; tauto|].
  eapply D_named; [vm_compute; reflexivity|reflexivity|].
  unfold parenthesized, lit.
  change (Leaf (TStr "(") :: e ++ [Leaf (TStr ")")])
    with ([Leaf (TStr "(")] ++ e ++ [Leaf (TStr ")")]).
  apply derives_seq3; [constructor|assumption|constructor].
Qed.

Lemma yields_as_level k leaf :
  In k expression_levels -> yields (as_level k leaf) = yield leaf.
Proof.
  intros Hk.
  repeat (destruct Hk as [<-|Hk];
    [cbv [as_level from below nest fold_right expression_levels binary_levels
          app String.eqb Ascii.eqb Bool.eqb yields];
     simpl; now rewrite ?app_nil_r|]).
  destruct Hk.
Qed.

(** X9. Parentheses override the ladder: an expression of any kind, put
    in parentheses, is an expression of every level, from [expression] down
    to [primary_expression]; and it can be put in any number of parentheses. *)
Theorem parentheses_fit_every_level (e : list tree) (k : string) (n : nat) :
  derives cspaced $"expression" e ->
  In k expression_levels ->
  (derives cspaced (SYMBOL k) (as_level k (parenthesized e)) /\
   yields (as_level k (parenthesized e))
   = TStr "(" :: yields e ++ [TStr ")"]) /\
  (derives cspaced $"expression" (in_parentheses n e) /\
   yields (in_parentheses n e)
   = List.repeat (TStr "(") n ++ yields e ++ List.repeat (TStr ")") n).
Proof.
  intros D Hk. split.
  - split; [apply as_level_derives; [assumption|now apply parenthesized_derives]|].
    rewrite yields_as_level by assumption.
    unfold parenthesized, lit, yields. simpl. now rewrite flat_map_app.
  - clear Hk. induction n as [|n [IH1 IH2]].
    + split; [assumption|]. simpl. now rewrite app_nil_r.
    + assert (Hx : In "expression" expression_levels) by now left.
      split.
      * unfold in_parentheses. simpl Nat.iter. fold (in_parentheses n e).
        apply as_level_derives; [assumption|now apply parenthesized_derives].
      * unfold in_parentheses. simpl Nat.iter. fold (in_parentheses n e).
        rewrite yields_as_level by assumption.
        unfold parenthesized, lit. cbn [yield].
        change (flat_map yield (Leaf (TStr "(") :: in_parentheses n e
                                ++ [Leaf (TStr ")")]))
          with (TStr "(" :: yields (in_parentheses n e ++ [Leaf (TStr ")")])).
        rewrite yields_app, IH2. cbn [List.repeat app]. f_equal.
        rewrite <- !app_assoc. do 2 f_equal.
        change (yields [Leaf (TStr ")")]) with ([TStr ")"]).
        change (TStr ")" :: List.repeat (TStr ")") n)
          with (List.repeat (TStr ")") (S n)).
        symmetry. apply repeat_cons.
Qed.

Lemma parentheses_fit_every_level_witness :
  derives cspaced $"multiplicative_expression"
    (as_level "multiplicative_expression"
       (parenthesized (as_level "expression" (ident "x")))) /\
  derives cspaced $"expression"
    (in_parentheses 3 (as_level "expression" (ident "x"))).
Proof.
  assert (D : derives cspaced $"expression" (as_level "expression" (ident "x")))
    by by_matcher.
  assert (Hk : In "multiplicative_expression" expression_levels)
    by (do 12 right; now left).
  destruct (parentheses_fit_every_level _ _ 3 D Hk) as [[A _] [B _]].
  auto.
Defined.

Lemma declarator_wrap d :
  derives cspaced $"declarator" [d] ->
  derives cspaced $"declarator" [Node "declarator" [lit "("; d; lit ")"]] /\
  derives cspaced $"declarator"
    [Node "declarator" [Node "pointer" [lit "*"]; d]].
Proof.
  intros D. split.
  - eapply D_named; [vm_compute; reflexivity|reflexivity|].
    apply D_choice
      with (r := SEQ [STRING "("; $"declarator"; STRING ")"]);
      [simpl; tauto|].
    apply (derives_seq3 cspaced _ _ _ [_] [_] [_]);
      [constructor|assumption|constructor].
  - eapply D_named; [vm_compute; reflexivity|reflexivity|].
    apply D_choice
      with (r := SEQ [$"pointer"; CHOICE [$"declarator"; BLANK]]);
      [simpl; tauto|].
    apply (derives_seq2 cspaced _ _ [_] [_]);
      [by_matcher|now apply derives_optional_some].
Qed.

(** X10. Declarators nest to any depth: a declarator stays a declarator
    under any number of pointer stars and inside any number of pairs of
    parentheses, and its tokens are those stars, then the declarator,
    between the parentheses. *)
Theorem declarators_nest (d : tree) (n m : nat) :
  derives cspaced $"declarator" [d] ->
  derives cspaced $"declarator" [declarator_in_parentheses n (pointer_to m d)] /\
  yield (declarator_in_parentheses n (pointer_to m d))
  = List.repeat (TStr "(") n ++ (List.repeat (TStr "*") m ++ yield d)
    ++ List.repeat (TStr ")") n.
Proof.
  intros D.
  assert (P : derives cspaced $"declarator" [pointer_to m d] /\
              yield (pointer_to m d) = List.repeat (TStr "*") m ++ yield d).
  { induction m as [|m [IH1 IH2]]; [split; [assumption|reflexivity]|].
    split.
    - apply (proj2 (declarator_wrap _ IH1)).
    - unfold pointer_to. simpl Nat.iter. fold (pointer_to m d).
      cbn [yield flat_map lit app]. rewrite app_nil_r, IH2. reflexivity. }
  destruct P as [P1 P2]. rewrite <- P2. clear P2 D.
  generalize dependent (pointer_to m d). intros t P1.
  induction n as [|n [IH1 IH2]].
  - split; [assumption|]. simpl. now rewrite app_nil_r.
  - split.
    + apply (proj1 (declarator_wrap _ IH1)).
    + unfold declarator_in_parentheses. simpl Nat.iter.
      fold (declarator_in_parentheses n t).
      cbn [yield flat_map lit app]. rewrite IH2.
      cbn [List.repeat app]. f_equal. rewrite <- !app_assoc. do 2 f_equal.
      change (TStr ")" :: List.repeat (TStr ")") n)
        with (List.repeat (TStr ")") (S n)).
      symmetry. apply repeat_cons.
Qed.

Lemma declarators_nest_witness :
  derives cspaced $"declarator"
    [declarator_in_parentheses 1 (pointer_to 1 (Node "declarator" [ident "fp"]))] /\
  derives cspaced $"declaration" [fp_declaration] /\
  yield fp_declaration = fp_tokens.
Proof.
  assert (D : derives cspaced $"declarator" [Node "declarator" [ident "fp"]])
    by by_matcher.
  split; [exact (proj1 (declarators_nest _ 1 1 D))|].
  split; [by_matcher|reflexivity].
Defined.

(** ** The first token of a statement *)

Section FirstToken.
Variable g : grammar.
Variable cls : terminal -> nat.
Variable tab : list (string * list (list nat)).
Hypothesis tab_stable : stable g cls tab = true.

(** The class of the first token of a derivation heads one of the
    prefixes computed for the rule. *)
Lemma first_head r ts tok tl :
  derives g r ts -> yields ts = tok :: tl ->
  heads (cls (terminal_of tok)) (first2 g cls (env_of tab) r) = true.
Proof.
  intros D E.
  pose proof (first2_sound g cls tab tab_stable _ _ D) as P.
  rewrite E in P. apply existsb_exists. eexists. split; [exact P|].
  simpl. apply Nat.eqb_refl.
Qed.

End FirstToken.

Lemma keyword_table_stable : stable cspaced keyword_cls keyword_table = true.
Proof. vm_compute. reflexivity. Qed.

Lemma statement_dispatch kw kind cs tl :
  In (kw, kind) dispatch ->
  derives cspaced $"statement" [Node "statement" cs] ->
  yields cs = TStr kw :: tl ->
  exists x, cs = [Node kind x] /\ derives cspaced (SYMBOL kind) cs.
Proof.
  intros Hin D E.
  inv_rule D "statement" cs'. injection H as <-.
  apply inv_choice in D as (q & Hq & D).
  repeat (destruct Hin as [[= <- <-]|Hin];
    [ repeat (destruct Hq as [<-|Hq];
        [ first
            [ apply (first_head cspaced keyword_cls keyword_table
                       keyword_table_stable _ _ _ _ D) in E;
              vm_compute in E; discriminate E
            | pose proof D as D';
              match type of D' with
              | derives _ (SYMBOL ?k) _ => inv_rule D' k x
              end;
              exists x; split; [assumption|exact D] ]
        | ]);
      destruct Hq
    | ]).
  destruct Hin.
Qed.

(** X11. The first token of a statement tells its kind: [if] and [switch]
    start a selection statement, [while], [do] and [for] an iteration
    statement, [goto], [continue], [break] and [return] a jump statement,
    [';'] the empty statement, [':'] a block, [case] and [default] a
    labeled statement, and nothing else.  No statement and no declaration
    starts with a brace. *)
Theorem statement_by_first_token (kw kind : string) (cs : list tree)
        (tl : list token) :
  In (kw, kind) dispatch ->
  derives cspaced $"statement" [Node "statement" cs] ->
  yields cs = TStr kw :: tl ->
  (exists x, cs = [Node kind x] /\ derives cspaced (SYMBOL kind) cs) /\
  (forall ts tok rest,
     derives cspaced block_item ts -> yields ts = tok :: rest ->
     tok <> TStr "{" /\ tok <> TStr "}").
Proof.
  intros Hin D E. split; [now apply statement_dispatch with (kw := kw) (tl := tl)|].
  intros ts tok rest Db Eb.
  apply (first_head cspaced keyword_cls keyword_table
           keyword_table_stable _ _ _ _ Db) in Eb.
  split; intros ->; vm_compute in Eb; discriminate Eb.
Qed.

Lemma statement_by_first_token_witness :
  exists x,
    [Node "selection_statement" [lit "if"; if_condition; if_block]]
    = [Node "selection_statement" x] /\
    derives cspaced $"selection_statement"
      [Node "selection_statement" [lit "if"; if_condition; if_block]].
Proof.
  refine (proj1 (statement_by_first_token "if" "selection_statement"
                   _ (tl if_tokens) _ _ _)).
  - now left.
  - by_matcher.
  - reflexivity.
Defined.

Lemma do_shape cs tl :
  derives cspaced $"statement" [Node "statement" cs] ->
  yields cs = TStr "do" :: tl ->
  (exists b c,
     cs = [Node "iteration_statement"
             [Leaf (TStr "do"); b; Leaf (TStr "while");
              Node "parenthesized_expression" c; Leaf (TStr ";")]] /\
     is_block b) /\
  (exists tl', tl = tl' ++ [TStr ";"]).
Proof.
  intros D E.
  assert (A : exists b c,
             cs = [Node "iteration_statement"
                     [Leaf (TStr "do"); b; Leaf (TStr "while");
                      Node "parenthesized_expression" c; Leaf (TStr ";")]] /\
             is_block b).
  { destruct (statement_dispatch "do" "iteration_statement" cs tl)
      as (x & -> & Di); [do 3 right; now left|assumption|assumption|].
    apply iteration_shape in Di
      as (x' & [= <-] & [(c & b & -> & Hb)|[(b & c & -> & Hb)|(h & b & -> & Hb)]]);
      [discriminate E| |discriminate E].
    exists b, c. auto. }
  split; [exact A|].
  destruct A as (b & c & -> & _).
  unfold yields in E. cbn [flat_map yield app] in E.
  rewrite !app_nil_r in E. injection E as <-.
  exists (yield b ++ TStr "while" :: flat_map yield c).
  now rewrite <- app_assoc.
Qed.

(** X12. A statement that starts with [do] is a [do] statement with a
    block, [while], a parenthesized expression and a closing [';']: unlike
    the other statements, its [';'] is not optional, and the same tokens
    without it are no statement. *)
Theorem do_ends_with_semicolon (cs : list tree) (tl : list token) :
  derives cspaced $"statement" [Node "statement" cs] ->
  yields cs = TStr "do" :: tl ->
  (exists b c,
     cs = [Node "iteration_statement"
             [Leaf (TStr "do"); b; Leaf (TStr "while");
              Node "parenthesized_expression" c; Leaf (TStr ";")]] /\
     is_block b) /\
  (exists tl', tl = tl' ++ [TStr ";"]) /\
  (derives cspaced $"statement" [do_statement] /\
   yield do_statement = do_tokens ++ [TStr ";"]) /\
  (forall ts, derives cspaced $"statement" ts -> yields ts <> do_tokens).
Proof.
  intros D E. destruct (do_shape cs tl D E) as [A B].
  split; [exact A|]. split; [exact B|].
  split; [split; [by_matcher|reflexivity]|].
  intros ts Ds Es. pose proof Ds as Ds'. inv_rule Ds' "statement" cs'. subst ts.
  unfold yields in Es. simpl flat_map in Es. rewrite app_nil_r in Es.
  destruct (do_shape cs' (List.tl do_tokens) Ds Es) as [_ (tl' & X)].
  apply (f_equal (fun l => last l (TStr EmptyString))) in X.
  rewrite last_last in X. vm_compute in X. discriminate X.
Qed.

Lemma do_ends_with_semicolon_witness :
  exists tl', tl (do_tokens ++ [TStr ";"]) = tl' ++ [TStr ";"].
Proof.
  refine (proj1 (proj2 (do_ends_with_semicolon _ _ _ _))).
  - assert (D : derives cspaced $"statement" [do_statement]) by by_matcher.
    exact D.
  - reflexivity.
Defined.

(** ** Initializers *)

Lemma initializer_relist t :
  derives cspaced $"initializer" [t] ->
  derives cspaced $"initializer"
    [Node "initializer" [Node "initializer_list" [t]]].
Proof.
  intros D. eapply D_named; [vm_compute; reflexivity|reflexivity|].
  apply D_choice with (r := $"initializer_list"); [simpl; tauto|].
  eapply D_named; [vm_compute; reflexivity|reflexivity|].
  apply (derives_seq3 cspaced _ _ _ [t] [] []);
    [assumption|constructor|apply derives_optional_none].
Qed.

(** X13. The rules [initializer] and [initializer_list] refer to each
    other without a token in between: an initializer is again an
    initializer under any number of [initializer] / [initializer_list]
    pairs, with the same tokens.  Every initializer so has derivation
    trees without bound. *)
Theorem initializers_relist (t : tree) (n : nat) :
  derives cspaced $"initializer" [t] ->
  derives cspaced $"initializer" [relisted n t] /\
  yield (relisted n t) = yield t /\
  length (kinds (relisted n t)) = 2 * n + length (kinds t).
Proof.
  intros D. induction n as [|n (IH1 & IH2 & IH3)].
  - split; [assumption|]. split; reflexivity.
  - unfold relisted. simpl Nat.iter. fold (relisted n t).
    split; [now apply initializer_relist|]. split.
    + cbn [yield flat_map]. now rewrite !app_nil_r.
    + cbn [kinds flat_map]. rewrite !app_nil_r. cbn [length].
      rewrite IH3. lia.
Qed.

Lemma initializers_relist_witness :
  derives cspaced $"initializer"
    [relisted 2 (Node "initializer"
                   (as_level "assignment_expression" (number "1")))].
Proof.
  refine (proj1 (initializers_relist _ 2 _)). by_matcher.
Defined.

(** ** Patterns in use *)

Lemma regex_eqb_refl p : regex_eqb p p = true.
Proof. unfold regex_eqb. destruct (regex_eq_dec p p); [reflexivity|congruence]. Qed.

Section PatternsInUse.
Variable g : grammar.
Variable R : list string.
Hypothesis closed : closedb g R = true.

(** Every pattern token of a derivation comes from the rule itself or
    from the body of a rule of the closed set. *)
Lemma derives_patterns r ts :
  derives g r ts -> incl (symbols r) R ->
  forall p text, In (TPat p text) (yields ts) ->
  In p (patterns r) \/ uses g R p = true.
Proof.
  induction 1 as [ | s | q text' Hm | n r ts Hr Hh D IH | n r ts Hr Hh D IH
                 | n Hr He | | r rs ts1 ts2 D1 IH1 D2 IH2 | r rs ts Hin D IH
                 | r | r ts1 ts2 D1 IH1 D2 IH2 | r ts1 ts2 D1 IH1 D2 IH2 ];
    intros Hs p text Hp; simpl in *;
    try contradiction.
  - destruct Hp as [[=]|[]].
  - destruct Hp as [[= -> ->]|[]]. left. now left.
  - assert (Hn : In n R) by (apply Hs; now left).
    rewrite app_nil_r in Hp. right.
    destruct (IH (closed_body g R closed n r Hn Hr) p text Hp) as [A|A];
      [|assumption].
    apply existsb_exists. exists n. split; [assumption|]. rewrite Hr.
    apply existsb_exists. exists p. split; [assumption|apply regex_eqb_refl].
  - assert (Hn : In n R) by (apply Hs; now left). right.
    destruct (IH (closed_body g R closed n r Hn Hr) p text Hp) as [A|A];
      [|assumption].
    apply existsb_exists. exists n. split; [assumption|]. rewrite Hr.
    apply existsb_exists. exists p. split; [assumption|apply regex_eqb_refl].
  - destruct Hp as [[=]|[]].
  - apply incl_app_inv in Hs as [Hs1 Hs2].
    unfold yields in Hp. rewrite flat_map_app in Hp.
    apply in_app_or in Hp as [Hp|Hp].
    + destruct (IH1 Hs1 p text Hp); [left; apply in_or_app|]; auto.
    + destruct (IH2 Hs2 p text Hp); [left; apply in_or_app|]; auto.
  - destruct (IH (fun x Hx => Hs x (proj2 (in_flat_map _ _ _)
                                      (ex_intro _ r (conj Hin Hx)))) p text Hp)
      as [A|A]; [left|now right].
    apply in_flat_map. now exists r.
  - unfold yields in Hp. rewrite flat_map_app in Hp.
    apply in_app_or in Hp as [Hp|Hp]; [apply (IH1 Hs p text Hp)|].
    apply (IH2 Hs p text Hp).
  - unfold yields in Hp. rewrite flat_map_app in Hp.
    apply in_app_or in Hp as [Hp|Hp]; [apply (IH1 Hs p text Hp)|].
    apply (IH2 Hs p text Hp).
Qed.

End PatternsInUse.

(** X14. The rule [_line_continuation] is dead: no rule refers to it and
    its pattern is not among the extras, where a backslash is no extra;
    so nothing another rule derives holds a line-continuation token. *)
Theorem line_continuation_is_dead (n : string) (body : rule) (ts : list tree) :
  rule_of cspaced n = Some body ->
  n <> "_line_continuation" ->
  derives cspaced (SYMBOL n) ts ->
  (forall text, ~ In (TPat re_line_continuation text) (yields ts)) /\
  (forall m b, rule_of cspaced m = Some b ->
               ~ In "_line_continuation" (symbols b)) /\
  is_extra cspaced backslash = false /\
  rule_of cspaced "_line_continuation" = Some (PATTERN re_line_continuation).
Proof.
  intros Hr Hn D.
  assert (C : closedb cspaced names_in_use = true) by (vm_compute; reflexivity).
  assert (Hin : In n names_in_use).
  { apply js_get_In in Hr.
    assert (A : forallb (fun nr => String.eqb (fst nr) "_line_continuation"
                                   || mem (fst nr) names_in_use)
                        (rules cspaced) = true) by (vm_compute; reflexivity).
    rewrite forallb_forall in A. specialize (A _ Hr). simpl in A.
    apply orb_prop in A as [A|A]; [apply String.eqb_eq in A; contradiction|].
    now apply mem_In. }
  split; [|split; [|split; reflexivity]].
  - intros text Hp.
    assert (I : incl (symbols (SYMBOL n)) names_in_use)
      by (intros x [<-|[]]; exact Hin).
    destruct (derives_patterns cspaced names_in_use C _ _ D I _ _ Hp)
      as [A|A]; [destruct A|].
    vm_compute in A. discriminate A.
  - intros m b Hm Hs. apply js_get_In in Hm.
    assert (A : forallb (fun nr => negb (mem "_line_continuation"
                                           (symbols (snd nr))))
                        (rules cspaced) = true) by (vm_compute; reflexivity).
    rewrite forallb_forall in A. specialize (A _ Hm). simpl in A.
    apply negb_true_iff in A. apply mem_In in Hs. congruence.
Qed.

Lemma line_continuation_is_dead_witness :
  derives cspaced $"translation_unit" [int_x_unit] /\
  forall text, ~ In (TPat re_line_continuation text) (yields [int_x_unit]).
Proof.
  assert (D : derives cspaced $"translation_unit" [int_x_unit]) by by_matcher.
  split; [exact D|].
  refine (proj1 (line_continuation_is_dead "translation_unit" _ _ _ _ D)).
  - vm_compute. reflexivity.
  - discriminate.
Defined.

(** ** Top-level items, tags and directives *)

Lemma external_shape ts :
  derives cspaced $"external_declaration" ts ->
  exists k x, ts = [Node "external_declaration" [Node k x]] /\
              In k external_kinds.
Proof.
  intros D. inv_rule D "external_declaration" cs. subst ts.
  apply inv_choice in D as (q & [<-|[<-|[<-|[<-|[]]]]] & D).
  - apply undefined_derives_nothing in D; [contradiction|reflexivity|reflexivity].
  - inv_rule D "declaration" x. subst cs. do 2 eexists.
    split; [reflexivity|simpl; tauto].
  - inv_rule D "preproc_directive" x. subst cs. do 2 eexists.
    split; [reflexivity|simpl; tauto].
  - inv_rule D "empty_statement" x. subst cs. do 2 eexists.
    split; [reflexivity|simpl; tauto].
Qed.

Lemma empty_statement_shape ts :
  derives cspaced $"empty_statement" ts -> ts = [semicolon_item].
Proof.
  intros D. inv_rule D "empty_statement" cs. subst ts.
  apply inv_seq_cons in D as (a & b & -> & Da & D).
  apply inv_seq_nil in D as ->. apply inv_string in Da as ->. reflexivity.
Qed.

(** X15. A file is a sequence of items, each an [external_declaration]
    around a declaration, a preprocessor directive or an empty statement,
    or an [empty_statement] by itself; so a [';'] at the top level has two
    derivations. *)
Theorem unit_items (cs : list tree) :
  derives cspaced $"translation_unit" [Node "translation_unit" cs] ->
  Forall is_unit_item cs /\
  (derives cspaced $"translation_unit"
     [Node "translation_unit" (cs ++ [semicolon_item])] /\
   derives cspaced $"translation_unit"
     [Node "translation_unit"
        (cs ++ [Node "external_declaration" [semicolon_item]])]).
Proof.
  intros D. inv_rule D "translation_unit" cs'. injection H as <-.
  assert (F : Forall is_unit_item cs).
  { revert cs D. apply repeat_rounds; [constructor|].
    intros a b Da _ IH.
    apply inv_choice in Da as (q & [<-|[<-|[]]] & Da).
    - apply external_shape in Da as (k & x & -> & Hk).
      constructor; [|assumption]. left. eauto.
    - apply empty_statement_shape in Da as ->.
      constructor; [|assumption]. now right. }
  split; [exact F|].
  assert (A : forall extra,
             derives cspaced
               (choice [$"external_declaration"; $"empty_statement"]) extra ->
             derives cspaced
               (REPEAT (choice [$"external_declaration"; $"empty_statement"]))
               (cs ++ extra)).
  { intros extra De. clear F. revert cs D.
    apply (repeat_rounds cspaced
             (fun cs => derives cspaced
                          (REPEAT (choice [$"external_declaration";
                                           $"empty_statement"]))
                          (cs ++ extra))).
    - simpl. rewrite <- (app_nil_r extra). constructor; [assumption|constructor].
    - intros a b Da _ IH. rewrite <- app_assoc. now constructor. }
  split; (eapply D_named; [vm_compute; reflexivity|reflexivity|]; apply A).
  - apply D_choice with (r := $"empty_statement"); [simpl; tauto|by_matcher].
  - apply D_choice with (r := $"external_declaration"); [simpl; tauto|by_matcher].
Qed.

Lemma unit_items_witness :
  Forall is_unit_item
    [Node "external_declaration"
       [Node "declaration"
          [Node "declaration_specifiers" [Node "type_specifier" [lit "int"]];
           Node "declarator" [ident "x"]; lit ";"]]].
Proof.
  refine (proj1 (unit_items _ _)). by_matcher.
Defined.

(** X16. A struct specifier always has a tag: it is [struct], an
    identifier, and then nothing or a brace pair around a non-empty
    member list.  An enum specifier is [enum] alone, [enum] and a tag, or
    [enum], a tag and a brace pair around an enumerator list: there is no
    enumerator list without a tag. *)
Theorem tags_of_specifiers (ss es : list tree) :
  derives cspaced $"struct_specifier" [Node "struct_specifier" ss] ->
  derives cspaced $"enum_specifier" [Node "enum_specifier" es] ->
  (exists tag,
     ss = [Leaf (TStr "struct"); Node "identifier" tag] \/
     exists members,
       ss = [Leaf (TStr "struct"); Node "identifier" tag; Leaf (TStr "{");
             Node "struct_declaration_list" members; Leaf (TStr "}")] /\
       yields members <> []) /\
  (es = [Leaf (TStr "enum")] \/
   exists tag,
     es = [Leaf (TStr "enum"); Node "identifier" tag] \/
     exists items,
       es = [Leaf (TStr "enum"); Node "identifier" tag; Leaf (TStr "{");
             Node "enumerator_list" items; Leaf (TStr "}")]).
Proof.
  intros D E. split.
  - inv_rule D "struct_specifier" cs'. injection H as <-.
    apply inv_choice in D as (q & [<-|[<-|[]]] & D).
    + apply inv_seq_cons in D as (a1 & b1 & -> & D1 & D).
      apply inv_seq_cons in D as (a2 & b2 & -> & D2 & D).
      apply inv_seq_cons in D as (a3 & b3 & -> & D3 & D).
      apply inv_seq_cons in D as (a4 & b4 & -> & D4 & D).
      apply inv_seq_cons in D as (a5 & b5 & -> & D5 & D).
      apply inv_seq_nil in D as ->.
      apply inv_string in D1 as ->. apply inv_string in D3 as ->.
      apply inv_string in D5 as ->.
      inv_rule D2 "identifier" tag. subst a2.
      pose proof D4 as D4'. inv_rule D4' "struct_declaration_list" ms. subst a4.
      exists tag. right. exists ms. split; [reflexivity|].
      intros X.
      apply (rule_is_not_empty "struct_declaration_list"
               (repeat1 $"struct_declaration")) in D4;
        [|reflexivity|discriminate].
      apply D4. unfold yields. simpl. now rewrite app_nil_r.
    + apply inv_seq_cons in D as (a1 & b1 & -> & D1 & D).
      apply inv_seq_cons in D as (a2 & b2 & -> & D2 & D).
      apply inv_seq_nil in D as ->. apply inv_string in D1 as ->.
      inv_rule D2 "identifier" tag. subst a2. exists tag. now left.
  - clear D. rename E into D.
    inv_rule D "enum_specifier" cs'. injection H as <-.
    apply inv_choice in D as (q & [<-|[<-|[]]] & D).
    + apply inv_seq_cons in D as (a1 & b1 & -> & D1 & D).
      apply inv_seq_cons in D as (a2 & b2 & -> & D2 & D).
      apply inv_seq_cons in D as (a3 & b3 & -> & D3 & D).
      apply inv_seq_cons in D as (a4 & b4 & -> & D4 & D).
      apply inv_seq_cons in D as (a5 & b5 & -> & D5 & D).
      apply inv_seq_nil in D as ->.
      apply inv_string in D1 as ->. apply inv_string in D3 as ->.
      apply inv_string in D5 as ->.
      inv_rule D2 "identifier" tag. subst a2.
      inv_rule D4 "enumerator_list" items. subst a4.
      right. exists tag. right. exists items. reflexivity.
    + apply inv_seq_cons in D as (a1 & b1 & -> & D1 & D).
      apply inv_seq_cons in D as (a2 & b2 & -> & D2 & D).
      apply inv_seq_nil in D as ->. apply inv_string in D1 as ->.
      apply inv_optional in D2 as [->|D2]; [now left|].
      inv_rule D2 "identifier" tag. subst a2. right. exists tag. now left.
Qed.

Lemma tags_of_specifiers_witness :
  exists tag,
    struct_point = [Leaf (TStr "struct"); Node "identifier" tag] \/
    exists members,
      struct_point
      = [Leaf (TStr "struct"); Node "identifier" tag; Leaf (TStr "{");
         Node "struct_declaration_list" members; Leaf (TStr "}")] /\
      yields members <> [].
Proof.
  refine (proj1 (tags_of_specifiers struct_point [lit "enum"] _ _));
    by_matcher.
Defined.

(** X17. A [#define] is the keyword, an identifier and at most one more
    token, the rest of the line taken whole by [/.+/]: a parameter list is
    not taken apart, as [_parenthesized_parameter_list] has no rule.  An
    [#include] is the keyword and a rest-of-line token between ['<'] and
    ['>'] or between two double quotes. *)
Theorem define_and_include (ds cs : list tree) :
  derives cspaced $"preproc_define" [Node "preproc_define" ds] ->
  derives cspaced $"preproc_include" [Node "preproc_include" cs] ->
  (exists name,
     ds = [Leaf (TStr "#define"); Node "identifier" name] \/
     exists text,
       ds = [Leaf (TStr "#define"); Node "identifier" name;
             Leaf (TPat re_rest_of_line text)] /\
       text <> EmptyString /\ all_chars not_line_terminator text = true) /\
  (exists text,
     (cs = [Leaf (TStr "#include"); Leaf (TStr "<");
            Leaf (TPat re_rest_of_line text); Leaf (TStr ">")] \/
      cs = [Leaf (TStr "#include"); Leaf (TStr dquote);
            Leaf (TPat re_rest_of_line text); Leaf (TStr dquote)]) /\
     text <> EmptyString /\ all_chars not_line_terminator text = true).
Proof.
  intros D E. split.
  - inv_rule D "preproc_define" cs'. injection H as <-.
    apply inv_seq_cons in D as (a1 & b1 & -> & D1 & D).
    apply inv_seq_cons in D as (a2 & b2 & -> & D2 & D).
    apply inv_seq_cons in D as (a3 & b3 & -> & D3 & D).
    apply inv_seq_nil in D as ->. apply inv_string in D1 as ->.
    inv_rule D2 "identifier" nm. subst a2. exists nm.
    apply inv_optional in D3 as [->|D3]; [now left|right].
    apply (inv_hidden cspaced "_preproc_define_value"
             (choice [PATTERN re_rest_of_line;
                      $"_parenthesized_parameter_list"])) in D3;
      [|reflexivity|reflexivity].
    apply inv_choice in D3 as (q & [<-|[<-|[]]] & D3).
    + apply inv_pattern in D3 as (text & -> & M).
      apply rest_of_line_texts in M as [N A]. exists text. auto.
    + apply undefined_derives_nothing in D3;
        [contradiction|reflexivity|reflexivity].
  - clear D. rename E into D.
    inv_rule D "preproc_include" cs'. injection H as <-.
    apply inv_seq_cons in D as (a1 & b1 & -> & D1 & D).
    apply inv_seq_cons in D as (a2 & b2 & -> & D2 & D).
    apply inv_seq_nil in D as ->. apply inv_string in D1 as ->.
    apply inv_choice in D2 as (q & [<-|[<-|[]]] & D2);
      apply inv_seq_cons in D2 as (x1 & y1 & -> & X1 & D2);
      apply inv_seq_cons in D2 as (x2 & y2 & -> & X2 & D2);
      apply inv_seq_cons in D2 as (x3 & y3 & -> & X3 & D2);
      apply inv_seq_nil in D2 as ->;
      apply inv_string in X1 as ->; apply inv_string in X3 as ->;
      apply inv_pattern in X2 as (text & -> & M);
      apply rest_of_line_texts in M as [N A]; exists text; auto.
Qed.

Lemma define_and_include_witness :
  exists name,
    define_max = [Leaf (TStr "#define"); Node "identifier" name] \/
    exists text,
      define_max = [Leaf (TStr "#define"); Node "identifier" name;
                    Leaf (TPat re_rest_of_line text)] /\
      text <> EmptyString /\ all_chars not_line_terminator text = true.
Proof.
  refine (proj1 (define_and_include define_max include_stdio _ _));
    by_matcher.
Defined.
